(** * Real-time telemetry aggregator: buffer, registry, ingest, hub, auth

    A shallow embedding of the aggregator's Go packages
    [internal/buffer] (ring buffers and the metric registry),
    [internal/ingest] (the streaming ingest server),
    [internal/ws] (the WebSocket hub and its broadcast loop) and
    [internal/auth] (API-key authentication), together with the
    properties of the specification that concern them.

    Conventions of the embedding:
    - Go's [uint64] and [int] are integers in [Z] with the wrap-around
      written out ([to_uint64], [to_int]);
    - Go's [float64] is Rocq's primitive binary64 float;
    - a run-time panic (index out of range, integer division by zero,
      [make] with a negative length) is the result [None];
    - a pointer is a location ([loc]); the objects a pointer can reach
      live in an explicit heap, so that two handles on one ring alias;
    - locks are not modelled: every function is one atomic step of a
      sequential execution. *)

From Stdlib Require Import ZArith Floats.PrimFloat Floats.FloatOps Floats.SpecFloat.
From stdpp Require Import gmap strings list fin_maps.

Local Open Scope Z_scope.

(** ** Machine integers and floats *)

Definition to_uint64 (z : Z) : Z := z mod 2 ^ 64.

Definition to_int (z : Z) : Z :=
  let w := z mod 2 ^ 64 in if w <? 2 ^ 63 then w else w - 2 ^ 64.

Definition is_int (z : Z) : Prop := - 2 ^ 63 ≤ z < 2 ^ 63.

(** [float64(c)] for an unsigned integer [c]: round to nearest, ties to
    even. *)
Definition float64_of_uint64 (c : Z) : float :=
  SF2Prim (binary_normalize prec emax c 0 false).

(** ** package buffer: Ring *)

Module buffer.

Record Sample := { Ts : Z; Val : float }.

(** The zero value [Sample{}]. *)
Definition Sample_zero : Sample := {| Ts := 0; Val := 0%float |}.

Record Ring := { data : list Sample; idx : Z; size : Z }.

Definition NewRing (sz : Z) : option Ring :=
  if sz <? 0 then None
  else Some {| data := replicate (Z.to_nat sz) Sample_zero;
               idx := 0;
               size := to_uint64 sz |}.

(** The slot [i % r.size]; the division panics when [r.size] is zero. *)
Definition slot (r : Ring) (i : Z) : option nat :=
  if size r =? 0 then None else Some (Z.to_nat (i mod size r)).

Definition Push (s : Sample) (r : Ring) : option Ring :=
  let new := to_uint64 (idx r + 1) in
  let i := to_uint64 (new - 1) in
  j ← slot r i;
  if decide (j < length (data r))%nat
  then Some {| data := <[j := s]> (data r); idx := new; size := size r |}
  else None.

(** The loop [for i := start; i < stop; i++ { result = append(result,
    r.data[i%r.size]) }]. *)
Definition read_range (r : Ring) (start stop : Z) : option (list Sample) :=
  mapM (λ i, j ← slot r i; data r !! j) (seqZ start (stop - start)).

Definition Snapshot (r : Ring) : option (list Sample) :=
  let currentIdx := idx r in
  let start := if size r <=? currentIdx
               then to_uint64 (currentIdx - size r) else 0 in
  read_range r start currentIdx.

Definition SnapshotLast (n : Z) (r : Ring) : option (list Sample) :=
  let currentIdx := idx r in
  let count := to_uint64 n in
  let count := if size r <? count then size r else count in
  let count := if currentIdx <? count then currentIdx else count in
  let start := to_uint64 (currentIdx - count) in
  read_range r start currentIdx.

Definition Latest (r : Ring) : option (Sample * bool) :=
  let currentIdx := idx r in
  if currentIdx =? 0 then Some (Sample_zero, false)
  else
    j ← slot r (to_uint64 (currentIdx - 1));
    s ← data r !! j;
    Some (s, true).

Definition Count (r : Ring) : Z := idx r.

Definition Len (r : Ring) : Z :=
  let count := idx r in
  if size r <? count then to_int (size r) else to_int count.

(** A sequence of pushes, oldest first, stopping at the first panic. *)
Definition push_all (S : list Sample) (r : Ring) : option Ring :=
  foldl (λ acc s, acc ≫= Push s) (Some r) S.


(** A ring of the given capacity after the given pushes. *)
Definition ring_after (C : Z) (S : list Sample) : option Ring :=
  NewRing C ≫= push_all S.

(** ** package buffer: HistogramRing *)

Definition DefaultRingSize : Z := 1000.
Definition HistogramRingSize : Z := 500.

Record MetricKey := { Service : string; Name : string }.

Global Instance MetricKey_eq_dec : EqDecision MetricKey.
Proof. solve_decision. Defined.

Global Instance MetricKey_countable : Countable MetricKey.
Proof.
  by apply (inj_countable' (λ k, (Service k, Name k))
                           (λ p, {| Service := p.1; Name := p.2 |})); intros [].
Defined.

(** [fmt.Sprintf("%s/%s", k.Service, k.Name)] *)
Definition MetricKey_String (k : MetricKey) : string :=
  Service k +:+ "/" +:+ Name k.

(** The histogram's timestamp field is [Ts] in the source; it is [HTs]
    here because [Sample] already has a projection of that name. *)
Record HistogramData := { HTs : Z; Bounds : list float; Counts : list Z }.

Definition HistogramData_zero : HistogramData :=
  {| HTs := 0; Bounds := []; Counts := [] |}.

(** Fields [data], [idx] and [size] of the source, prefixed. *)
Record HistogramRing :=
  { hdata : list HistogramData; hidx : Z; hsize : Z }.

Definition NewHistogramRing (sz : Z) : option HistogramRing :=
  if sz <? 0 then None
  else Some {| hdata := replicate (Z.to_nat sz) HistogramData_zero;
               hidx := 0;
               hsize := to_uint64 sz |}.

Definition hslot (r : HistogramRing) (i : Z) : option nat :=
  if hsize r =? 0 then None else Some (Z.to_nat (i mod hsize r)).

Definition HistogramRing_Push (h : HistogramData) (r : HistogramRing)
  : option HistogramRing :=
  j ← hslot r (hidx r);
  if decide (j < length (hdata r))%nat
  then Some {| hdata := <[j := h]> (hdata r);
               hidx := to_uint64 (hidx r + 1);
               hsize := hsize r |}
  else None.

Definition HistogramRing_Latest (r : HistogramRing)
  : option (HistogramData * bool) :=
  if hidx r =? 0 then Some (HistogramData_zero, false)
  else
    j ← hslot r (to_uint64 (hidx r - 1));
    h ← hdata r !! j;
    Some (h, true).

(** ** package buffer: Registry *)

(** Addresses of heap objects ([*Ring], [*HistogramRing], [*Client]). *)
Definition loc := positive.

(** The three maps of the [Registry] struct. *)
Record Registry := {
  gauges : gmap MetricKey loc;
  counters : gmap MetricKey loc;
  histograms : gmap MetricKey loc
}.

(** The registry with the rings its pointers reach: [rings] holds every
    allocated [Ring], [hrings] every allocated [HistogramRing]. *)
Record Mem := {
  reg : Registry;
  rings : gmap loc Ring;
  hrings : gmap loc HistogramRing
}.

Definition NewRegistry : Mem :=
  {| reg := {| gauges := ∅; counters := ∅; histograms := ∅ |};
     rings := ∅;
     hrings := ∅ |}.

Definition GetRing (service name : string) (m : Mem) : option (loc * Mem) :=
  let key := {| Service := service; Name := name |} in
  match gauges (reg m) !! key with
  | Some ring => Some (ring, m)
  | None =>
    (* Double-check after acquiring write lock *)
    match gauges (reg m) !! key with
    | Some ring => Some (ring, m)
    | None =>
      r ← NewRing DefaultRingSize;
      let ring := fresh (dom (rings m)) in
      Some (ring,
            {| reg := {| gauges := <[key := ring]> (gauges (reg m));
                         counters := counters (reg m);
                         histograms := histograms (reg m) |};
               rings := <[ring := r]> (rings m);
               hrings := hrings m |})
    end
  end.

Definition GetCounterRing (service name : string) (m : Mem)
  : option (loc * Mem) :=
  let key := {| Service := service; Name := name |} in
  match counters (reg m) !! key with
  | Some ring => Some (ring, m)
  | None =>
    match counters (reg m) !! key with
    | Some ring => Some (ring, m)
    | None =>
      r ← NewRing DefaultRingSize;
      let ring := fresh (dom (rings m)) in
      Some (ring,
            {| reg := {| gauges := gauges (reg m);
                         counters := <[key := ring]> (counters (reg m));
                         histograms := histograms (reg m) |};
               rings := <[ring := r]> (rings m);
               hrings := hrings m |})
    end
  end.

Definition GetHistogramRing (service name : string) (m : Mem)
  : option (loc * Mem) :=
  let key := {| Service := service; Name := name |} in
  match histograms (reg m) !! key with
  | Some ring => Some (ring, m)
  | None =>
    match histograms (reg m) !! key with
    | Some ring => Some (ring, m)
    | None =>
      r ← NewHistogramRing HistogramRingSize;
      let ring := fresh (dom (hrings m)) in
      Some (ring,
            {| reg := {| gauges := gauges (reg m);
                         counters := counters (reg m);
                         histograms := <[key := ring]> (histograms (reg m)) |};
               rings := rings m;
               hrings := <[ring := r]> (hrings m) |})
    end
  end.

(** [ring.Push(s)] through the pointer [ring]. *)
Definition Ring_Push_at (ring : loc) (s : Sample) (m : Mem) : option Mem :=
  r ← rings m !! ring;
  r' ← Push s r;
  Some {| reg := reg m; rings := <[ring := r']> (rings m); hrings := hrings m |}.

Definition HistogramRing_Push_at (ring : loc) (h : HistogramData) (m : Mem)
  : option Mem :=
  r ← hrings m !! ring;
  r' ← HistogramRing_Push h r;
  Some {| reg := reg m; rings := rings m; hrings := <[ring := r']> (hrings m) |}.

Record LatestSnapshot := {
  Gauges : gmap MetricKey Sample;
  Counters : gmap MetricKey Sample;
  Histograms : gmap MetricKey HistogramData
}.

(** [ring.Latest()] through a pointer of the registry. *)
Definition Latest_at (m : Mem) (ring : loc) : option (Sample * bool) :=
  rings m !! ring ≫= Latest.

Definition HistogramRing_Latest_at (m : Mem) (ring : loc)
  : option (HistogramData * bool) :=
  hrings m !! ring ≫= HistogramRing_Latest.

(** One loop [for key, ring := range table { if s, ok := ring.Latest();
    ok { out[key] = s } }].  Every iteration writes its own key, so the
    order of iteration does not show: the loop panics when the [Latest]
    of some ring does, and otherwise keeps the entries whose flag is
    set. *)
Definition if_ok {A} (res : option (A * bool)) : option A :=
  match res with
  | Some (s, true) => Some s
  | _ => None
  end.

Definition latest_of {A} (lat : loc → option (A * bool))
    (table : gmap MetricKey loc) : option (gmap MetricKey A) :=
  if decide (map_Forall (λ _ ring, is_Some (lat ring)) table)
  then Some (omap (λ ring, if_ok (lat ring)) table)
  else None.

Definition Registry_LatestSnapshot (m : Mem) : option LatestSnapshot :=
  g ← latest_of (Latest_at m) (gauges (reg m));
  c ← latest_of (Latest_at m) (counters (reg m));
  h ← latest_of (HistogramRing_Latest_at m) (histograms (reg m));
  Some {| Gauges := g; Counters := c; Histograms := h |}.

End buffer.

(** ** Channels *)

(** A buffered Go channel: its capacity, the queued elements (oldest
    first) and whether [close] was called. *)
Record chan (A : Type) := { cap : nat; buf : list A; closed : bool }.
Arguments cap {A} _.
Arguments buf {A} _.
Arguments closed {A} _.

Definition make_chan {A} (n : nat) : chan A :=
  {| cap := n; buf := []; closed := false |}.

(** [select { case c <- x: default: }]: the flag tells whether [x] was
    queued; a send on a closed channel panics. *)
Definition try_send {A} (x : A) (c : chan A) : option (chan A * bool) :=
  if closed c then None
  else if decide (length (buf c) < cap c)%nat
       then Some ({| cap := cap c; buf := buf c ++ [x]; closed := false |}, true)
       else Some (c, false).

Definition close_chan {A} (c : chan A) : option (chan A) :=
  if closed c then None
  else Some {| cap := cap c; buf := buf c; closed := true |}.

(** ** package ws: Hub, Client, broadcast *)

Module ws.
Import buffer.

Record Subscription := { Service : string; Metric : string }.

(** The JSON object [{"ts": ..., "val": ...}]. *)
Record SampleJSON := { js_ts : Z; js_val : float }.

(** The JSON object [{"ts": ..., "bounds": ..., "counts": ...}]. *)
Record HistogramJSON :=
  { js_hts : Z; js_bounds : list float; js_counts : list Z }.

(** The value handed to [json.Marshal]: the object with the keys
    [type], [timestamp], [gauges], [counters] and [histograms]. *)
Record Message := {
  m_type : string;
  m_timestamp : Z;
  m_gauges : gmap string SampleJSON;
  m_counters : gmap string SampleJSON;
  m_histograms : gmap string HistogramJSON
}.

(** [json.Marshal] refuses NaN and the infinities and then returns the
    nil slice; otherwise the encoded bytes stand for the object, and the
    object itself is kept as their model. *)
Definition json_supported (m : Message) : Prop :=
  map_Forall (λ _ e, is_finite (js_val e) = true) (m_gauges m) ∧
  map_Forall (λ _ e, is_finite (js_val e) = true) (m_counters m) ∧
  map_Forall (λ _ e, Forall (λ b, is_finite b = true) (js_bounds e))
             (m_histograms m).

Global Instance json_supported_dec m : Decision (json_supported m).
Proof. unfold json_supported. apply _. Defined.

Definition json_Marshal (m : Message) : option Message :=
  if decide (json_supported m) then Some m else None.

(** Fields [send] and [subs] of the source; [hub] and [conn] carry no
    state of the model. *)
Record Client := { send : chan Message; subs : list Subscription }.

(** [clients] is the map [map[*Client]bool] and [updates] the channel
    of the source.  The unbuffered channels [register] and [unregister]
    hold nothing: a send on one of them is the matching case of [Run].
    The channel [broadcast] is written by [Hub.Broadcast] only, which
    no function of the model calls. *)
Record Hub := { clients : gmap loc bool; updates : chan string }.

Definition NewHub : Hub :=
  {| clients := ∅; updates := make_chan 1000 |}.

(** The hub together with the heap of [Client] objects. *)
Record HubState := { hub : Hub; client_heap : gmap loc Client }.

(** [case client := <-h.register] of [Run]. *)
Definition Run_register (client : loc) (st : HubState) : HubState :=
  {| hub := {| clients := <[client := true]> (clients (hub st));
               updates := updates (hub st) |};
     client_heap := client_heap st |}.

(** [case client := <-h.unregister] of [Run]. *)
Definition Run_unregister (client : loc) (st : HubState) : option HubState :=
  match clients (hub st) !! client with
  | Some _ =>
    c ← client_heap st !! client;
    ch ← close_chan (send c);
    Some {| hub := {| clients := delete client (clients (hub st));
                      updates := updates (hub st) |};
            client_heap :=
              <[client := {| send := ch; subs := subs c |}]> (client_heap st) |}
  | None => Some st
  end.

(** A successful upgrade in [HandleWebSocket]: the new client is
    allocated and handed to [Run] over [register]. *)
Definition HandleWebSocket (st : HubState) : loc * HubState :=
  let client := fresh (dom (client_heap st)) in
  (client,
   Run_register client
     {| hub := hub st;
        client_heap :=
          <[client := {| send := make_chan 256; subs := [] |}]>
            (client_heap st) |}).

(** The body of [readPump] for one decoded control message: [None] is a
    message [json.Unmarshal] rejects. *)
Definition readPump_message (msg : option (string * list Subscription))
    (c : Client) : Client :=
  match msg with
  | Some (type, new_subs) =>
    if decide (type = "subscribe")
    then {| send := send c; subs := new_subs |}
    else c
  | None => c
  end.

Definition sample_json (s : Sample) : SampleJSON :=
  {| js_ts := Ts s; js_val := Val s |}.

Definition histogram_json (h : HistogramData) : HistogramJSON :=
  {| js_hts := HTs h; js_bounds := Bounds h; js_counts := Counts h |}.

(** [for key, v := range m { result[key.String()] = enc(v) }] along the
    order [entries] in which the run time enumerates the map. *)
Definition convert {A B} (enc : A → B) (entries : list (MetricKey * A))
  : gmap string B :=
  foldl (λ result kv, <[MetricKey_String kv.1 := enc kv.2]> result) ∅ entries.

(** The order in which [range] enumerates a map is chosen by the run
    time: it is a parameter of the model. *)
Definition MapOrder : Type := ∀ A, gmap MetricKey A → list (MetricKey * A).


Definition convertGauges (range : MapOrder) (gauges : gmap MetricKey Sample)
  : gmap string SampleJSON :=
  convert sample_json (range _ gauges).

Definition convertCounters (range : MapOrder) (counters : gmap MetricKey Sample)
  : gmap string SampleJSON :=
  convert sample_json (range _ counters).

Definition convertHistograms (range : MapOrder)
    (histograms : gmap MetricKey HistogramData) : gmap string HistogramJSON :=
  convert histogram_json (range _ histograms).

(** The three maps filled by the loop over [client.subs]. *)
Definition filter_step (snapshot : LatestSnapshot)
    (acc : gmap string SampleJSON * gmap string SampleJSON *
           gmap string HistogramJSON)
    (sub : Subscription)
  : gmap string SampleJSON * gmap string SampleJSON * gmap string HistogramJSON :=
  let '(gauges, counters, histograms) := acc in
  let key := {| buffer.Service := Service sub; Name := Metric sub |} in
  let gauges := match Gauges snapshot !! key with
                | Some g => <[MetricKey_String key := sample_json g]> gauges
                | None => gauges
                end in
  let counters := match Counters snapshot !! key with
                  | Some c => <[MetricKey_String key := sample_json c]> counters
                  | None => counters
                  end in
  let histograms := match Histograms snapshot !! key with
                    | Some hist =>
                      <[MetricKey_String key := histogram_json hist]> histograms
                    | None => histograms
                    end in
  (gauges, counters, histograms).

(** [now] is the reading of [time.Now().UnixNano()]. *)
Definition buildClientMessage (range : MapOrder) (now : Z) (client : Client)
    (snapshot : LatestSnapshot) : option Message :=
  if decide (length (subs client) = 0%nat) then
    (* No subscriptions, send all *)
    json_Marshal {| m_type := "snapshot";
                    m_timestamp := now;
                    m_gauges := convertGauges range (Gauges snapshot);
                    m_counters := convertCounters range (Counters snapshot);
                    m_histograms := convertHistograms range (Histograms snapshot) |}
  else
    (* Filter by subscriptions *)
    let '(gauges, counters, histograms) :=
      foldl (filter_step snapshot) (∅, ∅, ∅) (subs client) in
    json_Marshal {| m_type := "snapshot";
                    m_timestamp := now;
                    m_gauges := gauges;
                    m_counters := counters;
                    m_histograms := histograms |}.

(** The body of the loop of [broadcastSnapshot] for one client. *)
Definition offer_snapshot (range : MapOrder) (now : Z)
    (snapshot : LatestSnapshot) (c : Client) : option Client :=
  match buildClientMessage range now c snapshot with
  | Some msg =>
    '(ch, _) ← try_send msg (send c);
    Some {| send := ch; subs := subs c |}
  | None => Some c
  end.

(** [broadcastSnapshot]: one tick.  [now client] is the clock read while
    the message of [client] is built.  Every iteration of [for client :=
    range h.clients] touches its own client only, so the order of
    iteration does not show: the tick panics when some iteration does. *)
Definition broadcastSnapshot (range : MapOrder) (now : loc → Z) (m : Mem)
    (st : HubState) : option HubState :=
  snapshot ← Registry_LatestSnapshot m;
  let body client c := offer_snapshot range (now client) snapshot c in
  if decide (map_Forall (λ client _, is_Some (client_heap st !! client ≫= body client))
                        (clients (hub st)))
  then Some {| hub := hub st;
               client_heap :=
                 map_imap (λ client c,
                             match clients (hub st) !! client with
                             | Some _ => body client c
                             | None => Some c
                             end) (client_heap st) |}
  else None.

Definition NotifyUpdate (service : string) (h : Hub) : option Hub :=
  '(ch, _) ← try_send service (updates h);
  Some {| clients := clients h; updates := ch |}.

End ws.

(** ** package ingest: the streaming server *)

Module ingest.
Import buffer.

Record Ack := { Ok : bool }.

Record Histogram := { Bounds : list float; Counts : list Z }.

(** The [oneof] of a sample: the three wrapper types of the source. *)
Inductive isMetricSample_Value :=
  | MetricSample_Gauge (Gauge : float)
  | MetricSample_Counter (Counter : Z)
  | MetricSample_Histogram (Histogram : Histogram).

(** [Value] is [None] for the nil interface (no variant set). *)
Record MetricSample :=
  { TimestampNs : Z; Value : option isMetricSample_Value }.

Record Metric := {
  Name : string;
  Labels : gmap string string;
  Samples : list MetricSample
}.

Record TelemetryBatch := {
  Service : string;
  Instance : string;
  Metrics : list Metric
}.

(** The body of the loop of [processMetric] for one sample. *)
Definition processSample (service name : string) (sample : MetricSample)
    (m : Mem) : option Mem :=
  let ts := to_int (TimestampNs sample) in
  match Value sample with
  | Some (MetricSample_Gauge v) =>
    '(ring, m) ← GetRing service name m;
    Ring_Push_at ring {| Ts := ts; Val := v |} m
  | Some (MetricSample_Counter v) =>
    '(ring, m) ← GetCounterRing service name m;
    Ring_Push_at ring {| Ts := ts; Val := float64_of_uint64 v |} m
  | Some (MetricSample_Histogram v) =>
    '(ring, m) ← GetHistogramRing service name m;
    HistogramRing_Push_at ring
      {| HTs := ts; buffer.Bounds := Bounds v; buffer.Counts := Counts v |} m
  | None => Some m
  end.

Definition processMetric (service instance : string) (metric : Metric)
    (m : Mem) : option Mem :=
  foldl (λ acc sample, acc ≫= processSample service (Name metric) sample)
        (Some m) (Samples metric).

(** The state the server reaches through its two pointers. *)
Record ServerState := { registry : Mem; hub : ws.Hub }.

(** The body of the loop of [StreamTelemetry] for one received batch. *)
Definition processBatch (batch : TelemetryBatch) (st : ServerState)
  : option ServerState :=
  m ← foldl (λ acc metric,
               acc ≫= processMetric (Service batch) (Instance batch) metric)
            (Some (registry st)) (Metrics batch);
  h ← ws.NotifyUpdate (Service batch) (hub st);
  Some {| registry := m; hub := h |}.

(** Errors as [Recv] and [SendAndClose] report them. *)
Inductive error := io_EOF | transport_error (msg : string).

Global Instance error_eq_dec : EqDecision error.
Proof. solve_decision. Defined.

(** What one call of [StreamTelemetry] did on the stream: it returned
    [result] after the acknowledgments [acks] were sent, or it is still
    waiting in [Recv]. *)
Inductive Outcome :=
  | Returned (acks : list Ack) (result : option error)
  | AwaitingRecv.

(** [recvs] lists what the successive calls of [stream.Recv()] return:
    a batch, or an error; [send_result] is what [SendAndClose] returns. *)
Fixpoint StreamTelemetry (recvs : list (TelemetryBatch + error))
    (send_result : option error) (st : ServerState)
  : option (ServerState * Outcome) :=
  match recvs with
  | [] => Some (st, AwaitingRecv)
  | inr err :: _ =>
    if decide (err = io_EOF)
    then Some (st, Returned [{| Ok := true |}] send_result)
    else Some (st, Returned [] (Some err))
  | inl batch :: recvs =>
    st ← processBatch batch st;
    StreamTelemetry recvs send_result st
  end.

End ingest.

(** ** package auth *)

Module auth.

Record Authenticator := { apiKeys : gmap string bool; enabled : bool }.

(** [metadata.MD]: a map from lower-case keys to lists of values. *)
Definition MD : Type := gmap string (list string).

(** [a.apiKeys[key]]: the zero value [false] for a missing key. *)
Definition ValidateAPIKey (a : Authenticator) (key : string) : bool :=
  if negb (enabled a) then true
  else default false (apiKeys a !! key).

Inductive Code := Unauthenticated | PermissionDenied.

(** [status.Error(code, msg)] *)
Record Status := { code : Code; message : string }.

(** [md] is the result of [metadata.FromIncomingContext(ctx)]: [None]
    when the context carries no metadata.  The result is [None] for a
    nil error. *)
Definition authenticate (a : Authenticator) (md : option MD) : option Status :=
  if negb (enabled a) then None
  else
    match md with
    | None => Some {| code := Unauthenticated; message := "missing metadata" |}
    | Some md =>
      let keys := default [] (md !! "x-api-key") in
      match keys with
      | [] => Some {| code := Unauthenticated; message := "missing API key" |}
      | key :: _ =>
        if negb (ValidateAPIKey a key)
        then Some {| code := PermissionDenied; message := "invalid API key" |}
        else None
      end
    end.

(** The interceptors run [handler] on the state [St] of the server and
    hand its result [R] on, or stop with the status. *)
Definition StreamInterceptor {St R} (a : Authenticator) (md : option MD)
    (handler : St → St * R) (σ : St) : St * (Status + R) :=
  match authenticate a md with
  | Some err => (σ, inl err)
  | None => let '(σ', r) := handler σ in (σ', inr r)
  end.

Definition UnaryInterceptor {St R} (a : Authenticator) (md : option MD)
    (handler : St → St * R) (σ : St) : St * (Status + R) :=
  match authenticate a md with
  | Some err => (σ, inl err)
  | None => let '(σ', r) := handler σ in (σ', inr r)
  end.

Definition AddAPIKey (key : string) (a : Authenticator) : Authenticator :=
  {| apiKeys := <[key := true]> (apiKeys a); enabled := true |}.

Definition RemoveAPIKey (key : string) (a : Authenticator) : Authenticator :=
  {| apiKeys := delete key (apiKeys a); enabled := enabled a |}.

Definition Enable (a : Authenticator) : Authenticator :=
  {| apiKeys := apiKeys a; enabled := true |}.

Definition Disable (a : Authenticator) : Authenticator :=
  {| apiKeys := apiKeys a; enabled := false |}.

End auth.

(** * Specification vocabulary *)

(** ** Rings and the registry *)

Module buffer_spec.
Import buffer.

(** [r] is a ring of capacity [C] into which exactly the samples [S]
    were pushed, oldest first: the slots of the last [C] pushes hold
    them. *)
Record ring_rep (C : Z) (S : list Sample) (r : Ring) : Prop := {
  rep_size : size r = C;
  rep_idx : idx r = Z.of_nat (length S);
  rep_len : length (data r) = Z.to_nat C;
  rep_window : ∀ i : nat,
    Z.of_nat (length S) - C ≤ Z.of_nat i → (i < length S)%nat →
    data r !! Z.to_nat (Z.of_nat i mod C) = S !! i
}.

(** What every ring of the registry satisfies, whatever was pushed. *)
Definition ring_ok (r : Ring) : Prop :=
  0 < size r ∧ length (data r) = Z.to_nat (size r) ∧ 0 ≤ idx r < 2 ^ 64.

Definition hring_ok (r : HistogramRing) : Prop :=
  0 < hsize r ∧ length (hdata r) = Z.to_nat (hsize r) ∧ 0 ≤ hidx r < 2 ^ 64.

(** The registry's pointers reach allocated rings, and no ring serves
    both a gauge and a counter. *)
Record mem_wf (m : Mem) : Prop := {
  wf_gauges : ∀ k l, gauges (reg m) !! k = Some l →
                     ∃ r, rings m !! l = Some r ∧ ring_ok r;
  wf_counters : ∀ k l, counters (reg m) !! k = Some l →
                       ∃ r, rings m !! l = Some r ∧ ring_ok r;
  wf_histograms : ∀ k l, histograms (reg m) !! k = Some l →
                         ∃ r, hrings m !! l = Some r ∧ hring_ok r;
  wf_separate : ∀ k k' l, gauges (reg m) !! k = Some l →
                          counters (reg m) !! k' = Some l → False
}.

(** What a get-or-create call leaves as it was. *)
Record mem_extends (m m' : Mem) : Prop := {
  ext_gauges : gauges (reg m) ⊆ gauges (reg m');
  ext_counters : counters (reg m) ⊆ counters (reg m');
  ext_histograms : histograms (reg m) ⊆ histograms (reg m');
  ext_rings : rings m ⊆ rings m';
  ext_hrings : hrings m ⊆ hrings m'
}.

Inductive MetricVariant := Gauge | Counter | Histogram.

(** The specification's [get_or_create(variant, key)]: the three
    functions of the source, by variant. *)
Definition get_or_create (v : MetricVariant) (service name : string) (m : Mem)
  : option (loc * Mem) :=
  match v with
  | Gauge => GetRing service name m
  | Counter => GetCounterRing service name m
  | Histogram => GetHistogramRing service name m
  end.

Definition table_of (v : MetricVariant) (m : Mem) : gmap MetricKey loc :=
  match v with
  | Gauge => gauges (reg m)
  | Counter => counters (reg m)
  | Histogram => histograms (reg m)
  end.

(** Every operation of the source that writes to the registry or to a
    ring it holds. *)
Inductive mem_op :=
  | op_get_or_create (v : MetricVariant) (service name : string)
  | op_Push (ring : loc) (s : Sample)
  | op_HistogramPush (ring : loc) (h : HistogramData).

Definition run_op (o : mem_op) (m : Mem) : option Mem :=
  match o with
  | op_get_or_create v service name => snd <$> get_or_create v service name m
  | op_Push ring s => Ring_Push_at ring s m
  | op_HistogramPush ring h => HistogramRing_Push_at ring h m
  end.

Fixpoint run_ops (ops : list mem_op) (m : Mem) : option Mem :=
  match ops with
  | [] => Some m
  | o :: ops => m' ← run_op o m; run_ops ops m'
  end.

(** [r] is a histogram ring of capacity [C] into which exactly the
    data [H] were pushed, oldest first. *)
Record hring_rep (C : Z) (H : list HistogramData) (r : HistogramRing) : Prop := {
  hrep_size : hsize r = C;
  hrep_idx : hidx r = Z.of_nat (length H);
  hrep_len : length (hdata r) = Z.to_nat C;
  hrep_window : ∀ i : nat,
    Z.of_nat (length H) - C ≤ Z.of_nat i → (i < length H)%nat →
    hdata r !! Z.to_nat (Z.of_nat i mod C) = H !! i
}.

(** No two keys of a table share a ring: [Get*Ring] allocates a ring
    of its own for every key it adds. *)
Definition table_inj (table : gmap MetricKey loc) : Prop :=
  ∀ k k' l, table !! k = Some l → table !! k' = Some l → k = k'.

Definition mem_distinct (m : Mem) : Prop :=
  table_inj (gauges (reg m)) ∧ table_inj (counters (reg m)) ∧
  table_inj (histograms (reg m)).

(** What the registry holds for a key. [S] is a history of the ring
    that [table] registers under [key]: the ring took [|S|] pushes and
    its slots hold the last of them, as many as its capacity; a key
    without a ring took no push. *)
Definition ring_history (table : gmap MetricKey loc) (m : Mem)
    (key : MetricKey) (S : list Sample) : Prop :=
  match table !! key with
  | Some l => ∃ r, rings m !! l = Some r ∧ ring_rep (size r) S r
  | None => S = []
  end.

Definition gauge_history (m : Mem) : MetricKey → list Sample → Prop :=
  ring_history (gauges (reg m)) m.

Definition counter_history (m : Mem) : MetricKey → list Sample → Prop :=
  ring_history (counters (reg m)) m.

Definition histogram_history (m : Mem) (key : MetricKey)
    (H : list HistogramData) : Prop :=
  match histograms (reg m) !! key with
  | Some l => ∃ r, hrings m !! l = Some r ∧ hring_rep (hsize r) H r
  | None => H = []
  end.

Definition smp (t : Z) (v : float) : Sample := {| Ts := t; Val := v |}.

Definition mkey (service name : string) : MetricKey :=
  {| Service := service; Name := name |}.

(** Scenario 2: the values 1 to 6 with the timestamps 1 to 6. *)
Definition six_samples : list Sample :=
  [smp 1 1; smp 2 2; smp 3 3; smp 4 4; smp 5 5; smp 6 6].

End buffer_spec.

(** ** Ingest *)

Module ingest_spec.
Import buffer buffer_spec ingest.

Definition gauge_sample (ts : Z) (v : float) : MetricSample :=
  {| TimestampNs := ts; Value := Some (MetricSample_Gauge v) |}.

Definition counter_sample (ts : Z) (v : Z) : MetricSample :=
  {| TimestampNs := ts; Value := Some (MetricSample_Counter v) |}.

Definition histogram_sample (ts : Z) (bounds : list float) (counts : list Z)
  : MetricSample :=
  {| TimestampNs := ts;
     Value := Some (MetricSample_Histogram
                      {| Bounds := bounds; Counts := counts |}) |}.

(** The hint channel of the hub is never closed. *)
Definition server_wf (st : ServerState) : Prop :=
  mem_wf (registry st) ∧ closed (ws.updates (hub st)) = false.

(** The batches of a stream, one after the other. *)
Fixpoint processBatches (batches : list TelemetryBatch) (st : ServerState)
  : option ServerState :=
  match batches with
  | [] => Some st
  | batch :: batches => st' ← processBatch batch st; processBatches batches st'
  end.

Definition fresh_server : ServerState :=
  {| registry := NewRegistry; hub := ws.NewHub |}.

Definition one_gauge_batch : TelemetryBatch :=
  {| Service := "s1";
     Instance := "i1";
     Metrics :=
       [{| Name := "g";
           Labels := ∅;
           Samples := [gauge_sample 1000 1.5] |}] |}.

(** The variant a sample selects, if any. *)
Definition variant_of (sample : MetricSample) : option MetricVariant :=
  match Value sample with
  | Some (MetricSample_Gauge _) => Some buffer_spec.Gauge
  | Some (MetricSample_Counter _) => Some buffer_spec.Counter
  | Some (MetricSample_Histogram _) => Some buffer_spec.Histogram
  | None => None
  end.

(** What a sample of each variant is to leave in its ring. *)
Definition gauge_of (sample : MetricSample) : option Sample :=
  match Value sample with
  | Some (MetricSample_Gauge v) =>
    Some {| Ts := to_int (TimestampNs sample); Val := v |}
  | _ => None
  end.

Definition counter_of (sample : MetricSample) : option Sample :=
  match Value sample with
  | Some (MetricSample_Counter c) =>
    Some {| Ts := to_int (TimestampNs sample); Val := float64_of_uint64 c |}
  | _ => None
  end.

Definition histogram_of (sample : MetricSample) : option HistogramData :=
  match Value sample with
  | Some (MetricSample_Histogram h) =>
    Some {| HTs := to_int (TimestampNs sample);
            buffer.Bounds := Bounds h;
            buffer.Counts := Counts h |}
  | _ => None
  end.

(** The samples of a stream in the order of arrival, each with the key
    (service of its batch, name of its metric) it is sent for. *)
Definition arrivals (batches : list TelemetryBatch)
  : list (MetricKey * MetricSample) :=
  batch ← batches;
  metric ← Metrics batch;
  (λ sample, ({| buffer.Service := Service batch; buffer.Name := Name metric |},
              sample)) <$> Samples metric.

(** One arrival processed: the body of the loop of [processMetric] for
    the sample, after the arrivals before it. *)
Definition store (acc : option Mem) (a : MetricKey * MetricSample)
  : option Mem :=
  acc ≫= processSample (buffer.Service a.1) (buffer.Name a.1) a.2.

(** What a stream sends for one key and one variant, in order. *)
Definition sent {A} (pick : MetricSample → option A) (key : MetricKey)
    (batches : list TelemetryBatch) : list A :=
  omap (λ a, if decide (a.1 = key) then pick a.2 else None) (arrivals batches).

(** A batch with a sample of each variant. *)
Definition mixed_batch : TelemetryBatch :=
  {| Service := "s1";
     Instance := "i1";
     Metrics :=
       [{| Name := "g";
           Labels := ∅;
           Samples := [gauge_sample 1000 1.5; gauge_sample 2000 2.5] |};
        {| Name := "c";
           Labels := ∅;
           Samples := [counter_sample 3000 7] |};
        {| Name := "h";
           Labels := ∅;
           Samples := [histogram_sample 4000 [1; 2]%float [3; 4; 5]] |}] |}.

End ingest_spec.

(** ** Hub *)

Module ws_spec.
Import buffer buffer_spec ws.





(** The enumeration of a map in the order of [map_to_list]. *)
Definition listed_order : MapOrder := λ A m, map_to_list m.

(** [StartBroadcastLoop] over the ticks that fire: one clock per tick. *)
Fixpoint StartBroadcastLoop (range : MapOrder) (ticks : list (loc → Z)) (m : Mem)
    (st : HubState) : option HubState :=
  match ticks with
  | [] => Some st
  | now :: ticks =>
    st' ← broadcastSnapshot range now m st;
    StartBroadcastLoop range ticks m st'
  end.

Definition chan_ok {A} (c : chan A) : Prop :=
  closed c = false ∧ (length (buf c) ≤ cap c)%nat.

(** Every registered client is allocated and its mailbox is open. *)
Definition hub_wf (st : HubState) : Prop :=
  ∀ client registered, clients (hub st) !! client = Some registered →
    ∃ c, client_heap st !! client = Some c ∧ chan_ok (send c).

Definition msub (service metric : string) : Subscription :=
  {| ws.Service := service; Metric := metric |}.

Definition client_with (filter : list Subscription) : Client :=
  {| send := make_chan 256; subs := filter |}.

(** Scenario 4: two gauges, one of them subscribed to. *)
Definition two_gauges : LatestSnapshot :=
  {| Gauges := {[mkey "s1" "a" := smp 10 1; mkey "s1" "b" := smp 20 2]};
     Counters := ∅;
     Histograms := ∅ |}.



(** Scenario 5: one registered subscriber whose mailbox holds two
    messages, and five ticks. *)
Definition small_mailbox : Client := {| send := make_chan 2; subs := [] |}.

Definition one_subscriber : HubState :=
  Run_register 1%positive
    {| hub := NewHub; client_heap := {[1%positive := small_mailbox]} |}.

Definition tick_at (t : Z) : loc → Z := λ _, t.

Definition two_ticks : list (loc → Z) := [tick_at 1; tick_at 2].

Definition five_ticks : list (loc → Z) :=
  [tick_at 1; tick_at 2; tick_at 3; tick_at 4; tick_at 5].

(** The first client [HandleWebSocket] creates, with its mailbox of
    capacity 256, and the ticks 1 to [n]. *)
Definition first_client : HubState :=
  (HandleWebSocket {| hub := NewHub; client_heap := ∅ |}).2.

Definition ticks_to (n : Z) : list (loc → Z) := tick_at <$> seqZ 1 n.





(** Two keys with one string form, the first of them with a NaN. *)
Definition colliding_nan_gauges : LatestSnapshot :=
  {| Gauges := {[mkey "a/b" "c" := smp 10 nan; mkey "a" "b/c" := smp 20 2]};
     Counters := ∅;
     Histograms := ∅ |}.

End ws_spec.

(** ** Authentication *)

Module auth_spec.
Import auth.

(** The values of the [x-api-key] entry: [md.Get("x-api-key")], and
    nothing for a context without metadata. *)
Definition api_keys (md : option MD) : list string :=
  match md with
  | Some md => default [] (md !! "x-api-key")
  | None => []
  end.

Definition one_key_authenticator : Authenticator :=
  AddAPIKey "secret" {| apiKeys := ∅; enabled := false |}.

End auth_spec.

(** * Properties *)

(** ** Rings and the registry *)

Module buffer_facts.
Import buffer buffer_spec.

Lemma to_uint64_small z : 0 ≤ z < 2 ^ 64 → to_uint64 z = z.
Proof. intros. unfold to_uint64. by apply Z.mod_small. Qed.

Lemma to_int_small z : 0 ≤ z < 2 ^ 63 → to_int z = z.
Proof.
  intros. unfold to_int. rewrite Z.mod_small by lia.
  destruct (Z.ltb_spec z (2 ^ 63)); lia.
Qed.

Lemma NewRing_rep C :
  0 ≤ C < 2 ^ 63 → ∃ r, NewRing C = Some r ∧ ring_rep C [] r.
Proof.
  intros HC. unfold NewRing.
  destruct (Z.ltb_spec C 0); [lia|].
  eexists; split; [done|].
  split; simpl.
  - apply to_uint64_small. lia.
  - done.
  - by rewrite length_replicate.
  - intros i _ Hi. simpl in Hi. lia.
Qed.

Lemma mod_slots_differ C i n :
  0 < C → n - C < i → i < n → i mod C ≠ n mod C.
Proof.
  intros HC Hlo Hhi Heq.
  assert ((n - i) mod C = 0) as H0.
  { rewrite Zminus_mod, Heq, Z.sub_diag. by apply Z.mod_0_l; lia. }
  rewrite Z.mod_small in H0 by lia. lia.
Qed.

Lemma Push_rep C S r s :
  0 < C → Z.of_nat (length S) + 1 < 2 ^ 64 → ring_rep C S r →
  ∃ r', Push s r = Some r' ∧ ring_rep C (S ++ [s]) r'.
Proof.
  intros HC HN [Hsz Hidx Hlen Hwin].
  unfold Push, slot. rewrite Hsz, Hidx.
  destruct (Z.eqb_spec C 0); [lia|]. simpl.
  rewrite (to_uint64_small (_ + 1)) by lia.
  replace (Z.of_nat (length S) + 1 - 1) with (Z.of_nat (length S)) by lia.
  rewrite to_uint64_small by lia.
  set (j := Z.to_nat (Z.of_nat (length S) mod C)).
  assert (j < Z.to_nat C)%nat as Hj.
  { unfold j. pose proof (Z.mod_pos_bound (Z.of_nat (length S)) C HC). lia. }
  rewrite decide_True by lia.
  eexists; split; [done|].
  split; simpl.
  - done.
  - rewrite length_app. simpl. lia.
  - by rewrite length_insert.
  - intros i Hlo Hhi. rewrite length_app in Hlo, Hhi. simpl in Hlo, Hhi.
    destruct (decide (i = length S)) as [->|Hne].
    + fold j. rewrite list_lookup_insert_eq by lia.
      by rewrite list_lookup_middle.
    + rewrite list_lookup_insert_ne.
      * rewrite lookup_app_l by lia. apply Hwin; lia.
      * unfold j. intros Heq. apply Z2Nat.inj in Heq.
        -- symmetry in Heq. revert Heq. apply mod_slots_differ; lia.
        -- apply Z.mod_pos_bound; lia.
        -- apply Z.mod_pos_bound; lia.
Qed.

Lemma push_all_snoc S s r :
  push_all (S ++ [s]) r = push_all S r ≫= Push s.
Proof. unfold push_all. by rewrite foldl_snoc. Qed.

Lemma push_all_rep C S0 S r :
  0 < C → Z.of_nat (length S0 + length S) < 2 ^ 64 → ring_rep C S0 r →
  ∃ r', push_all S r = Some r' ∧ ring_rep C (S0 ++ S) r'.
Proof.
  intros HC. induction S as [|s S IH] using rev_ind; intros HN Hrep.
  - exists r. by rewrite app_nil_r.
  - rewrite length_app in HN. simpl in HN.
    destruct IH as (r1 & Hrun & Hrep1); [lia|done|].
    destruct (Push_rep C (S0 ++ S) r1 s) as (r2 & Hpush & Hrep2); [done| |done|].
    { rewrite length_app. lia. }
    exists r2. rewrite push_all_snoc, Hrun. simpl.
    by rewrite (assoc_L (++)).
Qed.

Lemma read_range_rep C S r start :
  ring_rep C S r → 0 ≤ start ≤ Z.of_nat (length S) →
  Z.of_nat (length S) - C ≤ start →
  read_range r start (Z.of_nat (length S)) = Some (drop (Z.to_nat start) S).
Proof.
  intros [Hsz Hidx Hlen Hwin] Hstart Hlo.
  unfold read_range. apply mapM_Some.
  apply Forall2_same_length_lookup_2.
  - rewrite length_seqZ, length_drop. lia.
  - intros i x y Hx Hy.
    apply lookup_seqZ in Hx as [-> Hi].
    rewrite lookup_drop in Hy.
    assert (Z.to_nat start + i < length S)%nat as Hlt.
    { apply lookup_lt_is_Some. eauto. }
    unfold slot. rewrite Hsz.
    destruct (Z.eqb_spec C 0); [lia|]. simpl.
    rewrite <- Hy.
    replace (start + Z.of_nat i) with (Z.of_nat (Z.to_nat start + i)) by lia.
    apply Hwin; lia.
Qed.

Lemma ring_after_rep C S :
  0 < C < 2 ^ 63 → Z.of_nat (length S) < 2 ^ 64 →
  ∃ r, ring_after C S = Some r ∧ ring_rep C S r.
Proof.
  intros HC HN. unfold ring_after.
  destruct (NewRing_rep C) as (r0 & -> & Hrep0); [lia|]. simpl.
  apply (push_all_rep C [] S r0); [lia|simpl; lia|done].
Qed.

Lemma Len_rep C S r :
  0 ≤ C < 2 ^ 63 → ring_rep C S r → Len r = Z.min (Z.of_nat (length S)) C.
Proof.
  intros HC [Hsz Hidx _ _]. unfold Len. rewrite Hsz, Hidx.
  destruct (Z.ltb_spec C (Z.of_nat (length S))); rewrite to_int_small; lia.
Qed.

Lemma Latest_rep C S r :
  S = [] ∨ 0 < C → Z.of_nat (length S) < 2 ^ 64 → ring_rep C S r →
  Latest r = Some (match last S with
                   | Some s => (s, true)
                   | None => (Sample_zero, false)
                   end).
Proof.
  intros HC HN [Hsz Hidx Hlen Hwin]. unfold Latest, slot. rewrite Hsz, Hidx.
  destruct S as [|s0 S'] using rev_ind; [done|]. clear IHS'.
  destruct HC as [Hnil|HC]; [by destruct S'|].
  rewrite last_snoc. rewrite length_app in *. simpl in *.
  destruct (Z.eqb_spec (Z.of_nat (length S' + 1)) 0); [lia|].
  destruct (Z.eqb_spec C 0); [lia|]. simpl.
  rewrite to_uint64_small by lia.
  replace (Z.of_nat (length S' + 1) - 1) with (Z.of_nat (length S')) by lia.
  rewrite Hwin by lia. by rewrite list_lookup_middle.
Qed.

Lemma SnapshotLast_rep C S r n :
  0 ≤ C < 2 ^ 63 → Z.of_nat (length S) < 2 ^ 64 → ring_rep C S r →
  SnapshotLast n r =
    Some (drop (length S - Z.to_nat (Z.min (Z.min (to_uint64 n) C) (Z.of_nat (length S)))) S).
Proof.
  intros HC HN Hrep. pose proof Hrep as [Hsz Hidx _ _].
  unfold SnapshotLast. rewrite Hsz, Hidx.
  assert (0 ≤ to_uint64 n < 2 ^ 64) as Hn by (apply Z.mod_pos_bound; lia).
  set (c1 := if C <? to_uint64 n then C else to_uint64 n).
  set (c2 := if Z.of_nat (length S) <? c1 then Z.of_nat (length S) else c1).
  assert (c2 = Z.min (Z.min (to_uint64 n) C) (Z.of_nat (length S))) as Hc2.
  { unfold c2, c1. repeat case_match; lia. }
  rewrite Hc2. rewrite to_uint64_small by lia.
  rewrite (read_range_rep C S) by (done || lia).
  f_equal. f_equal. lia.
Qed.

Lemma Snapshot_rep C S r :
  0 ≤ C < 2 ^ 63 → Z.of_nat (length S) < 2 ^ 64 → ring_rep C S r →
  Snapshot r = Some (drop (length S - Z.to_nat C) S).
Proof.
  intros HC HN Hrep. pose proof Hrep as [Hsz Hidx _ _].
  unfold Snapshot. rewrite Hsz, Hidx.
  destruct (Z.leb_spec C (Z.of_nat (length S))).
  - rewrite to_uint64_small by lia.
    rewrite (read_range_rep C S) by (done || lia).
    f_equal. f_equal. lia.
  - rewrite (read_range_rep C S) by (done || lia).
    f_equal. f_equal. lia.
Qed.

Lemma push_all_panicked S :
  foldl (λ acc s, acc ≫= Push s) None S = None.
Proof. by induction S. Qed.

Lemma ring_after_inv C S r :
  is_int C → Z.of_nat (length S) < 2 ^ 64 → ring_after C S = Some r →
  0 ≤ C ∧ (S = [] ∨ 0 < C) ∧ ring_rep C S r.
Proof.
  intros [_ HC] HN Hrun. unfold ring_after in Hrun.
  destruct (Z.ltb_spec C 0) as [Hneg|Hpos].
  { unfold NewRing in Hrun. destruct (Z.ltb_spec C 0); [done|lia]. }
  destruct (NewRing_rep C) as (r0 & Hnew & Hrep0); [lia|].
  rewrite Hnew in Hrun. simpl in Hrun.
  destruct (decide (C = 0)) as [->|Hne].
  - destruct S as [|s S'].
    + unfold push_all in Hrun. simpl in Hrun. simplify_eq.
      split; [lia|]. split; [by left|done].
    + exfalso. unfold push_all in Hrun. simpl in Hrun.
      unfold Push at 2, slot in Hrun. rewrite (rep_size _ _ _ Hrep0) in Hrun.
      simpl in Hrun. by rewrite push_all_panicked in Hrun.
  - destruct (push_all_rep C [] S r0) as (r' & Hrun' & Hrep); [lia|simpl; lia|done|].
    simpl in Hrep. split; [lia|]. split; [right; lia|]. congruence.
Qed.

(** C3.  A fresh ring of capacity [C] (a Go [int]) takes any sequence
    [S] of pushes when [C] is positive, and whenever the [N = |S|]
    pushes were made, with [N] in the range of the [uint64] that
    [Count] returns: [Len()] is [min(N, C)], [Count()] is [N], and
    [Latest()] is [(s, true)] for the sample [s] pushed last when
    [N > 0] and [(Sample{}, false)] when [N = 0]. *)
Theorem ring_len_count_latest C S :
  is_int C → Z.of_nat (length S) < 2 ^ 64 →
  (0 < C → is_Some (ring_after C S)) ∧
  ∀ r, ring_after C S = Some r →
       Len r = Z.min (Z.of_nat (length S)) C ∧
       Count r = Z.of_nat (length S) ∧
       Latest r = Some (match last S with
                        | Some s => (s, true)
                        | None => (Sample_zero, false)
                        end).
Proof.
  intros HC HN. split.
  - intros Hpos. destruct (ring_after_rep C S) as (r & -> & _); [|done|by eexists].
    destruct HC. lia.
  - intros r Hrun.
    destruct (ring_after_inv C S r HC HN Hrun) as (HC0 & HS & Hrep).
    destruct HC as [_ HC]. split; [|split].
    + apply (Len_rep C S); [lia|done].
    + apply Hrep.
    + by apply (Latest_rep C S).
Qed.

Lemma ring_len_count_latest_witness :
  ring_after 4 six_samples
    = Some {| data := [smp 5 5; smp 6 6; smp 3 3; smp 4 4]; idx := 6; size := 4 |} ∧
  Len {| data := [smp 5 5; smp 6 6; smp 3 3; smp 4 4]; idx := 6; size := 4 |} = 4 ∧
  Count {| data := [smp 5 5; smp 6 6; smp 3 3; smp 4 4]; idx := 6; size := 4 |} = 6 ∧
  Latest {| data := [smp 5 5; smp 6 6; smp 3 3; smp 4 4]; idx := 6; size := 4 |}
    = Some (smp 6 6, true).
Proof.
  assert (ring_after 4 six_samples
            = Some {| data := [smp 5 5; smp 6 6; smp 3 3; smp 4 4];
                      idx := 6; size := 4 |}) as Hrun by reflexivity.
  split; [exact Hrun|].
  apply (ring_len_count_latest 4 six_samples).
  - unfold is_int. lia.
  - simpl. lia.
  - exact Hrun.
Defined.

(** C4.  After the pushes [S] into a fresh ring of capacity [C], and
    for every [k >= 0], [SnapshotLast(k)] returns exactly the last
    [min(k, C, |S|)] samples of [S], oldest first.  The witness is the
    ring of capacity 4 after the values 1 to 6: [SnapshotLast(10)] is
    [{3,3},{4,4},{5,5},{6,6}], [Count()] is 6 and [Len()] is 4. *)
Theorem SnapshotLast_window C S k :
  is_int C → Z.of_nat (length S) < 2 ^ 64 → 0 ≤ k < 2 ^ 63 →
  (0 < C → is_Some (ring_after C S)) ∧
  ∀ r, ring_after C S = Some r →
       ∃ w, SnapshotLast k r = Some w ∧
            w = drop (length S - Z.to_nat (Z.min (Z.min k C) (Z.of_nat (length S)))) S ∧
            Z.of_nat (length w) = Z.min (Z.min k C) (Z.of_nat (length S)).
Proof.
  intros HC HN Hk. split.
  - intros Hpos. destruct (ring_after_rep C S) as (r & -> & _); [|done|by eexists].
    destruct HC. lia.
  - intros r Hrun.
    destruct (ring_after_inv C S r HC HN Hrun) as (HC0 & HS & Hrep).
    destruct HC as [_ HC]. eexists.
    rewrite (SnapshotLast_rep C S) by (done || lia).
    rewrite to_uint64_small by lia.
    split; [done|]. split; [done|].
    rewrite length_drop. lia.
Qed.

Lemma SnapshotLast_window_witness :
  ring_after 4 six_samples
    = Some {| data := [smp 5 5; smp 6 6; smp 3 3; smp 4 4]; idx := 6; size := 4 |} ∧
  SnapshotLast 10 {| data := [smp 5 5; smp 6 6; smp 3 3; smp 4 4]; idx := 6; size := 4 |}
    = Some [smp 3 3; smp 4 4; smp 5 5; smp 6 6] ∧
  Count {| data := [smp 5 5; smp 6 6; smp 3 3; smp 4 4]; idx := 6; size := 4 |} = 6 ∧
  Len {| data := [smp 5 5; smp 6 6; smp 3 3; smp 4 4]; idx := 6; size := 4 |} = 4.
Proof.
  assert (ring_after 4 six_samples
            = Some {| data := [smp 5 5; smp 6 6; smp 3 3; smp 4 4];
                      idx := 6; size := 4 |}) as Hrun by reflexivity.
  split; [exact Hrun|].
  destruct (SnapshotLast_window 4 six_samples 10) as [_ Hwin].
  - unfold is_int. lia.
  - simpl. lia.
  - lia.
  - destruct (Hwin _ Hrun) as (w & Hw & -> & _).
    split; [exact Hw|]. split; reflexivity.
Defined.

Lemma to_uint64_negative n :
  - 2 ^ 64 ≤ n < 0 → to_uint64 n = n + 2 ^ 64.
Proof.
  intros Hn. unfold to_uint64.
  rewrite <- (Z_mod_plus_full n 1 (2 ^ 64)).
  rewrite Z.mod_small; lia.
Qed.

(** C10, as amended.  [SnapshotLast] is total on negative arguments:
    for a ring [r] of capacity [C] after the pushes [S] and every
    negative [int] [n], [uint64(n)] wraps to a value that is at least
    the capacity, and [SnapshotLast(n)] returns, without a panic, the
    full valid window: the result of [SnapshotLast(C)] and of
    [Snapshot()], the last [min(|S|, C)] samples pushed, [Len()] of
    them.  The window is the empty slice exactly when nothing was
    pushed into the ring. *)
Theorem SnapshotLast_negative_total C S r n :
  is_int C → Z.of_nat (length S) < 2 ^ 64 → ring_after C S = Some r →
  is_int n → n < 0 →
  size r ≤ to_uint64 n ∧
  ∃ w, SnapshotLast n r = Some w ∧
       SnapshotLast C r = Some w ∧
       Snapshot r = Some w ∧
       w = drop (length S - Z.to_nat C) S ∧
       Z.of_nat (length w) = Len r ∧
       (w = [] ↔ S = []).
Proof.
  intros HC HN Hrun Hn Hneg.
  destruct (ring_after_inv C S r HC HN Hrun) as (HC0 & HS & Hrep).
  destruct HC as [_ HC]. destruct Hn as [Hn _].
  assert (to_uint64 n = n + 2 ^ 64) as Hwrap by (apply to_uint64_negative; lia).
  split; [rewrite (rep_size _ _ _ Hrep); lia|].
  exists (drop (length S - Z.to_nat C) S).
  split; [|split; [|split; [|split; [|split]]]].
  - rewrite (SnapshotLast_rep C S) by (done || lia).
    f_equal. rewrite Hwrap. f_equal. lia.
  - rewrite (SnapshotLast_rep C S) by (done || lia).
    rewrite to_uint64_small by lia. f_equal. f_equal. lia.
  - apply (Snapshot_rep C S); done || lia.
  - done.
  - rewrite (Len_rep C S) by (done || lia). rewrite length_drop. lia.
  - split; [|by intros ->].
    intros Hnil. destruct HS as [->|HCpos]; [done|].
    apply (f_equal length) in Hnil.
    rewrite length_drop in Hnil. simpl in Hnil.
    destruct S; [done|]. simpl in Hnil. lia.
Qed.

Lemma SnapshotLast_negative_total_witness :
  ring_after 4 six_samples
    = Some {| data := [smp 5 5; smp 6 6; smp 3 3; smp 4 4]; idx := 6; size := 4 |} ∧
  SnapshotLast (-1) {| data := [smp 5 5; smp 6 6; smp 3 3; smp 4 4]; idx := 6; size := 4 |}
    = Some [smp 3 3; smp 4 4; smp 5 5; smp 6 6] ∧
  SnapshotLast 4 {| data := [smp 5 5; smp 6 6; smp 3 3; smp 4 4]; idx := 6; size := 4 |}
    = Some [smp 3 3; smp 4 4; smp 5 5; smp 6 6].
Proof.
  assert (ring_after 4 six_samples
            = Some {| data := [smp 5 5; smp 6 6; smp 3 3; smp 4 4];
                      idx := 6; size := 4 |}) as Hrun by reflexivity.
  split; [exact Hrun|].
  destruct (SnapshotLast_negative_total 4 six_samples
              {| data := [smp 5 5; smp 6 6; smp 3 3; smp 4 4]; idx := 6; size := 4 |}
              (-1))
    as (_ & w & H1 & H2 & _ & -> & _).
  - unfold is_int. lia.
  - simpl. lia.
  - exact Hrun.
  - unfold is_int. lia.
  - lia.
  - split; [exact H1|exact H2].
Defined.

Lemma SnapshotLast_empty_counterexample :
  NewRing DefaultRingSize ≫= SnapshotLast (-1) = Some [] ∧
  NewRing DefaultRingSize ≫= SnapshotLast DefaultRingSize = Some [] ∧
  NewRing DefaultRingSize ≫= Snapshot = Some [] ∧
  (GetRing "s1" "x" NewRegistry ≫=
     λ '(ring, m), rings m !! ring ≫= SnapshotLast (-1)) = Some [].
Proof. split_and!; vm_compute; reflexivity. Qed.

Lemma NewRegistry_wf : mem_wf NewRegistry.
Proof. split; simpl; intros *; by rewrite lookup_empty. Qed.

Lemma NewRing_default :
  ∃ r, NewRing DefaultRingSize = Some r ∧ ring_ok r ∧ idx r = 0.
Proof.
  eexists. split; [reflexivity|]. split; [|done].
  split; [done|]. split; [by vm_compute|done].
Qed.

Lemma NewHistogramRing_default :
  ∃ r, NewHistogramRing HistogramRingSize = Some r ∧ hring_ok r ∧ hidx r = 0.
Proof.
  eexists. split; [reflexivity|]. split; [|done].
  split; [done|]. split; [by vm_compute|done].
Qed.

Lemma to_uint64_range z : 0 ≤ to_uint64 z < 2 ^ 64.
Proof. unfold to_uint64. apply Z.mod_pos_bound. lia. Qed.

Lemma Push_ok s r :
  ring_ok r →
  ∃ r', Push s r = Some r' ∧ ring_ok r' ∧
        size r' = size r ∧ idx r' = to_uint64 (idx r + 1) ∧
        data r' = <[Z.to_nat (to_uint64 (to_uint64 (idx r + 1) - 1) mod size r) := s]> (data r).
Proof.
  intros (Hsz & Hlen & Hidx). unfold Push, slot.
  destruct (Z.eqb_spec (size r) 0); [lia|]. simpl.
  set (j := Z.to_nat _).
  assert (j < length (data r))%nat as Hj.
  { unfold j. rewrite Hlen.
    pose proof (Z.mod_pos_bound (to_uint64 (to_uint64 (idx r + 1) - 1)) (size r) Hsz).
    lia. }
  rewrite decide_True by done.
  eexists. split; [done|]. unfold ring_ok. simpl. split; [|done].
  split; [done|]. split; [by rewrite length_insert|apply to_uint64_range].
Qed.

Lemma Latest_Push s r r' :
  ring_ok r → idx r + 1 < 2 ^ 64 → Push s r = Some r' →
  Latest r' = Some (s, true).
Proof.
  intros Hok Hidx Hpush.
  destruct (Push_ok s r Hok) as (r1 & Hpush1 & Hok1 & Hsz1 & Hidx1 & Hdata1).
  rewrite Hpush in Hpush1. simplify_eq.
  destruct Hok as (Hsz & Hlen & Hi).
  rewrite (to_uint64_small (idx r + 1)) in Hidx1, Hdata1 by lia.
  unfold Latest, slot. rewrite Hsz1, Hidx1, Hdata1.
  destruct (Z.eqb_spec (idx r + 1) 0); [lia|].
  destruct (Z.eqb_spec (size r) 0); [lia|]. simpl.
  rewrite list_lookup_insert_eq; [done|].
  rewrite Hlen.
  pose proof (Z.mod_pos_bound (to_uint64 (idx r + 1 - 1)) (size r) Hsz). lia.
Qed.

Lemma Latest_ok r : ring_ok r → is_Some (Latest r).
Proof.
  intros (Hsz & Hlen & Hidx). unfold Latest, slot.
  destruct (Z.eqb_spec (idx r) 0); [by eexists|].
  destruct (Z.eqb_spec (size r) 0); [lia|]. simpl.
  destruct (lookup_lt_is_Some_2 (data r)
              (Z.to_nat (to_uint64 (idx r - 1) mod size r))) as [s ->]; [|by eexists].
  rewrite Hlen.
  pose proof (Z.mod_pos_bound (to_uint64 (idx r - 1)) (size r) Hsz). lia.
Qed.

Lemma HistogramRing_Push_ok h r :
  hring_ok r →
  ∃ r', HistogramRing_Push h r = Some r' ∧ hring_ok r' ∧ h ∈ hdata r' ∧
        hdata r' !! Z.to_nat (hidx r mod hsize r) = Some h.
Proof.
  intros (Hsz & Hlen & Hidx). unfold HistogramRing_Push, hslot.
  destruct (Z.eqb_spec (hsize r) 0); [lia|]. simpl.
  assert (Z.to_nat (hidx r mod hsize r) < length (hdata r))%nat as Hj.
  { rewrite Hlen. pose proof (Z.mod_pos_bound (hidx r) (hsize r) Hsz). lia. }
  rewrite decide_True by done.
  eexists. split; [done|]. unfold hring_ok. simpl.
  assert (<[Z.to_nat (hidx r mod hsize r) := h]> (hdata r)
            !! Z.to_nat (hidx r mod hsize r) = Some h) as Hl
    by by apply list_lookup_insert_eq.
  split; [|split; [|done]].
  - split; [done|]. split; [by rewrite length_insert|apply to_uint64_range].
  - by eapply list_elem_of_lookup_2.
Qed.

Lemma HistogramRing_Latest_ok r : hring_ok r → is_Some (HistogramRing_Latest r).
Proof.
  intros (Hsz & Hlen & Hidx). unfold HistogramRing_Latest, hslot.
  destruct (Z.eqb_spec (hidx r) 0); [by eexists|].
  destruct (Z.eqb_spec (hsize r) 0); [lia|]. simpl.
  destruct (lookup_lt_is_Some_2 (hdata r)
              (Z.to_nat (to_uint64 (hidx r - 1) mod hsize r))) as [s ->]; [|by eexists].
  rewrite Hlen.
  pose proof (Z.mod_pos_bound (to_uint64 (hidx r - 1)) (hsize r) Hsz). lia.
Qed.

Lemma fresh_ring_None {A} (heap : gmap loc A) : heap !! fresh (dom heap) = None.
Proof. apply not_elem_of_dom. apply is_fresh. Qed.

Lemma GetRing_present service name m l :
  gauges (reg m) !! {| Service := service; Name := name |} = Some l →
  GetRing service name m = Some (l, m).
Proof. intros H. unfold GetRing. by rewrite H. Qed.

Lemma GetCounterRing_present service name m l :
  counters (reg m) !! {| Service := service; Name := name |} = Some l →
  GetCounterRing service name m = Some (l, m).
Proof. intros H. unfold GetCounterRing. by rewrite H. Qed.

Lemma GetHistogramRing_present service name m l :
  histograms (reg m) !! {| Service := service; Name := name |} = Some l →
  GetHistogramRing service name m = Some (l, m).
Proof. intros H. unfold GetHistogramRing. by rewrite H. Qed.

Lemma GetRing_absent service name m :
  gauges (reg m) !! {| Service := service; Name := name |} = None →
  ∃ r, NewRing DefaultRingSize = Some r ∧
       GetRing service name m =
         Some (fresh (dom (rings m)),
               {| reg := {| gauges := <[{| Service := service; Name := name |}
                                         := fresh (dom (rings m))]> (gauges (reg m));
                            counters := counters (reg m);
                            histograms := histograms (reg m) |};
                  rings := <[fresh (dom (rings m)) := r]> (rings m);
                  hrings := hrings m |}).
Proof.
  intros H. destruct NewRing_default as (r & Hr & _). exists r. split; [done|].
  unfold GetRing. rewrite H, Hr. done.
Qed.

Lemma GetCounterRing_absent service name m :
  counters (reg m) !! {| Service := service; Name := name |} = None →
  ∃ r, NewRing DefaultRingSize = Some r ∧
       GetCounterRing service name m =
         Some (fresh (dom (rings m)),
               {| reg := {| gauges := gauges (reg m);
                            counters := <[{| Service := service; Name := name |}
                                           := fresh (dom (rings m))]> (counters (reg m));
                            histograms := histograms (reg m) |};
                  rings := <[fresh (dom (rings m)) := r]> (rings m);
                  hrings := hrings m |}).
Proof.
  intros H. destruct NewRing_default as (r & Hr & _). exists r. split; [done|].
  unfold GetCounterRing. rewrite H, Hr. done.
Qed.

Lemma GetHistogramRing_absent service name m :
  histograms (reg m) !! {| Service := service; Name := name |} = None →
  ∃ r, NewHistogramRing HistogramRingSize = Some r ∧
       GetHistogramRing service name m =
         Some (fresh (dom (hrings m)),
               {| reg := {| gauges := gauges (reg m);
                            counters := counters (reg m);
                            histograms := <[{| Service := service; Name := name |}
                                             := fresh (dom (hrings m))]> (histograms (reg m)) |};
                  rings := rings m;
                  hrings := <[fresh (dom (hrings m)) := r]> (hrings m) |}).
Proof.
  intros H. destruct NewHistogramRing_default as (r & Hr & _). exists r. split; [done|].
  unfold GetHistogramRing. rewrite H, Hr. done.
Qed.

Lemma mem_extends_refl m : mem_extends m m.
Proof. by split. Qed.

Lemma GetRing_wf service name m :
  mem_wf m →
  ∃ l m' r, GetRing service name m = Some (l, m') ∧ mem_wf m' ∧
    mem_extends m m' ∧
    gauges (reg m') !! {| Service := service; Name := name |} = Some l ∧
    counters (reg m') = counters (reg m) ∧
    histograms (reg m') = histograms (reg m) ∧
    hrings m' = hrings m ∧
    rings m' !! l = Some r ∧
    (gauges (reg m) !! {| Service := service; Name := name |} = Some l ∧ m' = m ∨
     gauges (reg m) !! {| Service := service; Name := name |} = None ∧ idx r = 0).
Proof.
  intros Hwf.
  destruct (gauges (reg m) !! {| Service := service; Name := name |}) as [l|] eqn:Hk.
  - destruct (wf_gauges m Hwf _ _ Hk) as (r & Hr & _).
    exists l, m, r. rewrite (GetRing_present _ _ _ _ Hk).
    split_and!; try done; try apply mem_extends_refl; by left.
  - destruct (GetRing_absent _ _ _ Hk) as (r & Hnew & ->).
    destruct NewRing_default as (r' & Hnew' & Hok & Hidx). simplify_eq.
    pose proof (fresh_ring_None (rings m)) as Hfresh.
    eexists _, _, r. split; [done|]. simpl.
    split; [|split; [|split_and!; try done]].
    + split; simpl.
      * intros k l [[<- <-]|[Hne Hl]]%lookup_insert_Some.
        -- exists r. by rewrite lookup_insert_eq.
        -- destruct (wf_gauges m Hwf _ _ Hl) as (r0 & Hr0 & Hok0).
           exists r0. split; [|done]. rewrite lookup_insert_ne; [done|]. congruence.
      * intros k l Hl. destruct (wf_counters m Hwf _ _ Hl) as (r0 & Hr0 & Hok0).
        exists r0. split; [|done]. rewrite lookup_insert_ne; [done|]. congruence.
      * apply Hwf.
      * intros k k' l [[<- <-]|[Hne Hl]]%lookup_insert_Some Hc.
        -- destruct (wf_counters m Hwf _ _ Hc) as (r0 & Hr0 & _). congruence.
        -- eapply (wf_separate m Hwf); eauto.
    + split; simpl; try done; by apply insert_subseteq.
    + apply lookup_insert_eq.
    + apply lookup_insert_eq.
    + by right.
Qed.

Lemma GetCounterRing_wf service name m :
  mem_wf m →
  ∃ l m' r, GetCounterRing service name m = Some (l, m') ∧ mem_wf m' ∧
    mem_extends m m' ∧
    counters (reg m') !! {| Service := service; Name := name |} = Some l ∧
    gauges (reg m') = gauges (reg m) ∧
    histograms (reg m') = histograms (reg m) ∧
    hrings m' = hrings m ∧
    rings m' !! l = Some r ∧
    (counters (reg m) !! {| Service := service; Name := name |} = Some l ∧ m' = m ∨
     counters (reg m) !! {| Service := service; Name := name |} = None ∧ idx r = 0).
Proof.
  intros Hwf.
  destruct (counters (reg m) !! {| Service := service; Name := name |}) as [l|] eqn:Hk.
  - destruct (wf_counters m Hwf _ _ Hk) as (r & Hr & _).
    exists l, m, r. rewrite (GetCounterRing_present _ _ _ _ Hk).
    split_and!; try done; try apply mem_extends_refl; by left.
  - destruct (GetCounterRing_absent _ _ _ Hk) as (r & Hnew & ->).
    destruct NewRing_default as (r' & Hnew' & Hok & Hidx). simplify_eq.
    pose proof (fresh_ring_None (rings m)) as Hfresh.
    eexists _, _, r. split; [done|]. simpl.
    split; [|split; [|split_and!; try done]].
    + split; simpl.
      * intros k l Hl. destruct (wf_gauges m Hwf _ _ Hl) as (r0 & Hr0 & Hok0).
        exists r0. split; [|done]. rewrite lookup_insert_ne; [done|]. congruence.
      * intros k l [[<- <-]|[Hne Hl]]%lookup_insert_Some.
        -- exists r. by rewrite lookup_insert_eq.
        -- destruct (wf_counters m Hwf _ _ Hl) as (r0 & Hr0 & Hok0).
           exists r0. split; [|done]. rewrite lookup_insert_ne; [done|]. congruence.
      * apply Hwf.
      * intros k k' l Hg [[<- <-]|[Hne Hl]]%lookup_insert_Some.
        -- destruct (wf_gauges m Hwf _ _ Hg) as (r0 & Hr0 & _). congruence.
        -- eapply (wf_separate m Hwf); eauto.
    + split; simpl; try done; by apply insert_subseteq.
    + apply lookup_insert_eq.
    + apply lookup_insert_eq.
    + by right.
Qed.

Lemma GetHistogramRing_wf service name m :
  mem_wf m →
  ∃ l m' r, GetHistogramRing service name m = Some (l, m') ∧ mem_wf m' ∧
    mem_extends m m' ∧
    histograms (reg m') !! {| Service := service; Name := name |} = Some l ∧
    gauges (reg m') = gauges (reg m) ∧
    counters (reg m') = counters (reg m) ∧
    rings m' = rings m ∧
    hrings m' !! l = Some r ∧ hring_ok r ∧
    (histograms (reg m) !! {| Service := service; Name := name |} = Some l ∧ m' = m ∨
     histograms (reg m) !! {| Service := service; Name := name |} = None ∧ hidx r = 0).
Proof.
  intros Hwf.
  destruct (histograms (reg m) !! {| Service := service; Name := name |}) as [l|] eqn:Hk.
  - destruct (wf_histograms m Hwf _ _ Hk) as (r & Hr & Hok).
    exists l, m, r. rewrite (GetHistogramRing_present _ _ _ _ Hk).
    split_and!; try done; try apply mem_extends_refl; by left.
  - destruct (GetHistogramRing_absent _ _ _ Hk) as (r & Hnew & ->).
    destruct NewHistogramRing_default as (r' & Hnew' & Hok & Hidx). simplify_eq.
    pose proof (fresh_ring_None (hrings m)) as Hfresh.
    eexists _, _, r. split; [done|]. simpl.
    split; [|split; [|split_and!; try done]].
    + split; simpl; [apply Hwf|apply Hwf| |apply Hwf].
      intros k l [[<- <-]|[Hne Hl]]%lookup_insert_Some.
      -- exists r. by rewrite lookup_insert_eq.
      -- destruct (wf_histograms m Hwf _ _ Hl) as (r0 & Hr0 & Hok0).
         exists r0. split; [|done]. rewrite lookup_insert_ne; [done|]. congruence.
    + split; simpl; try done; by apply insert_subseteq.
    + apply lookup_insert_eq.
    + apply lookup_insert_eq.
    + by right.
Qed.

Lemma Ring_Push_at_wf l s m r :
  mem_wf m → rings m !! l = Some r → ring_ok r →
  ∃ r', Push s r = Some r' ∧ ring_ok r' ∧
        Ring_Push_at l s m =
          Some {| reg := reg m; rings := <[l := r']> (rings m); hrings := hrings m |} ∧
        mem_wf {| reg := reg m; rings := <[l := r']> (rings m); hrings := hrings m |}.
Proof.
  intros Hwf Hr Hok.
  destruct (Push_ok s r Hok) as (r' & Hpush & Hok' & _).
  exists r'. split; [done|]. split; [done|]. split.
  { unfold Ring_Push_at. rewrite Hr. simpl. by rewrite Hpush. }
  split; simpl.
  - intros k l0 Hl0. destruct (decide (l0 = l)) as [->|Hne].
    + exists r'. by rewrite lookup_insert_eq.
    + rewrite lookup_insert_ne by done. by apply (wf_gauges m Hwf k).
  - intros k l0 Hl0. destruct (decide (l0 = l)) as [->|Hne].
    + exists r'. by rewrite lookup_insert_eq.
    + rewrite lookup_insert_ne by done. by apply (wf_counters m Hwf k).
  - apply Hwf.
  - apply Hwf.
Qed.

Lemma HistogramRing_Push_at_wf l h m r :
  mem_wf m → hrings m !! l = Some r → hring_ok r →
  ∃ r', HistogramRing_Push h r = Some r' ∧ hring_ok r' ∧
        HistogramRing_Push_at l h m =
          Some {| reg := reg m; rings := rings m; hrings := <[l := r']> (hrings m) |} ∧
        mem_wf {| reg := reg m; rings := rings m; hrings := <[l := r']> (hrings m) |}.
Proof.
  intros Hwf Hr Hok.
  destruct (HistogramRing_Push_ok h r Hok) as (r' & Hpush & Hok' & _).
  exists r'. split; [done|]. split; [done|]. split.
  { unfold HistogramRing_Push_at. rewrite Hr. simpl. by rewrite Hpush. }
  split; simpl; [apply Hwf|apply Hwf| |apply Hwf].
  intros k l0 Hl0. destruct (decide (l0 = l)) as [->|Hne].
  - exists r'. by rewrite lookup_insert_eq.
  - rewrite lookup_insert_ne by done. by apply (wf_histograms m Hwf k).
Qed.

Lemma latest_of_Some {A} (lat : loc → option (A * bool)) table :
  map_Forall (λ _ ring, is_Some (lat ring)) table →
  latest_of lat table = Some (omap (λ ring, if_ok (lat ring)) table).
Proof. intros H. unfold latest_of. by rewrite decide_True. Qed.

Lemma Registry_LatestSnapshot_wf m :
  mem_wf m →
  Registry_LatestSnapshot m =
    Some {| Gauges := omap (λ ring, if_ok (Latest_at m ring)) (gauges (reg m));
            Counters := omap (λ ring, if_ok (Latest_at m ring)) (counters (reg m));
            Histograms := omap (λ ring, if_ok (HistogramRing_Latest_at m ring))
                               (histograms (reg m)) |}.
Proof.
  intros Hwf. unfold Registry_LatestSnapshot.
  rewrite !latest_of_Some; [done|..].
  - intros k l Hl. destruct (wf_gauges m Hwf _ _ Hl) as (r & Hr & Hok).
    unfold Latest_at. rewrite Hr. simpl. by apply Latest_ok.
  - intros k l Hl. destruct (wf_counters m Hwf _ _ Hl) as (r & Hr & Hok).
    unfold Latest_at. rewrite Hr. simpl. by apply Latest_ok.
  - intros k l Hl. destruct (wf_histograms m Hwf _ _ Hl) as (r & Hr & Hok).
    unfold HistogramRing_Latest_at. rewrite Hr. simpl.
    by apply HistogramRing_Latest_ok.
Qed.

Lemma get_or_create_present v service name m l :
  table_of v m !! {| Service := service; Name := name |} = Some l →
  get_or_create v service name m = Some (l, m).
Proof.
  destruct v; simpl.
  - apply GetRing_present.
  - apply GetCounterRing_present.
  - apply GetHistogramRing_present.
Qed.

Lemma get_or_create_total v service name m :
  ∃ l m', get_or_create v service name m = Some (l, m') ∧
          table_of v m' !! {| Service := service; Name := name |} = Some l ∧
          ∀ v' k l', table_of v' m !! k = Some l' → table_of v' m' !! k = Some l'.
Proof.
  destruct (table_of v m !! {| Service := service; Name := name |}) as [l|] eqn:Hk.
  - exists l, m. by rewrite (get_or_create_present _ _ _ _ _ Hk).
  - destruct v; simpl in *.
    + destruct (GetRing_absent _ _ _ Hk) as (r & _ & ->).
      do 2 eexists. split; [done|]. simpl. split; [apply lookup_insert_eq|].
      intros [] k l' Hl'; simpl in *; [|done..].
      rewrite lookup_insert_ne; [done|congruence].
    + destruct (GetCounterRing_absent _ _ _ Hk) as (r & _ & ->).
      do 2 eexists. split; [done|]. simpl. split; [apply lookup_insert_eq|].
      intros [] k l' Hl'; simpl in *; [done| |done].
      rewrite lookup_insert_ne; [done|congruence].
    + destruct (GetHistogramRing_absent _ _ _ Hk) as (r & _ & ->).
      do 2 eexists. split; [done|]. simpl. split; [apply lookup_insert_eq|].
      intros [] k l' Hl'; simpl in *; [done..|].
      rewrite lookup_insert_ne; [done|congruence].
Qed.

Lemma run_op_keeps_entries o m m' v k l :
  run_op o m = Some m' → table_of v m !! k = Some l → table_of v m' !! k = Some l.
Proof.
  destruct o as [v' service name|ring s|ring h]; simpl; intros Hrun Hl.
  - destruct (get_or_create_total v' service name m) as (l0 & m0 & Hget & _ & Hkeep).
    rewrite Hget in Hrun. simpl in Hrun. injection Hrun as <-. by apply Hkeep.
  - unfold Ring_Push_at in Hrun.
    destruct (rings m !! ring) as [r|]; [|done]. simpl in Hrun.
    destruct (Push s r); [|done]. simpl in Hrun. injection Hrun as <-.
    by destruct v.
  - unfold HistogramRing_Push_at in Hrun.
    destruct (hrings m !! ring) as [r|]; [|done]. simpl in Hrun.
    destruct (HistogramRing_Push h r); [|done]. simpl in Hrun. injection Hrun as <-.
    by destruct v.
Qed.

Lemma run_ops_keeps_entries ops m m' v k l :
  run_ops ops m = Some m' → table_of v m !! k = Some l → table_of v m' !! k = Some l.
Proof.
  revert m. induction ops as [|o ops IH]; simpl; intros m Hrun Hl.
  - by injection Hrun as <-.
  - destruct (run_op o m) as [m1|] eqn:Ho; [|done]. simpl in Hrun.
    eapply IH; [done|]. by eapply run_op_keeps_entries.
Qed.

(** C7.  Creation in the registry is idempotent.  For every variant
    and key, the get-or-create call ([GetRing], [GetCounterRing],
    [GetHistogramRing]) returns a ring; and after any operations on the
    registry and its rings in between, a second call with the same
    variant and key returns the same ring instance [l] and changes
    nothing: the stored ring and its contents are not replaced. *)
Theorem get_or_create_idempotent v service name m :
  (∃ l m1, get_or_create v service name m = Some (l, m1)) ∧
  ∀ l m1 ops m2,
    get_or_create v service name m = Some (l, m1) →
    run_ops ops m1 = Some m2 →
    get_or_create v service name m2 = Some (l, m2).
Proof.
  destruct (get_or_create_total v service name m) as (l & m1 & Hget & Hk & _).
  split; [by eauto|].
  intros l' m1' ops m2 Hget' Hrun. rewrite Hget in Hget'. simplify_eq.
  apply get_or_create_present. by eapply run_ops_keeps_entries.
Qed.

Lemma get_or_create_idempotent_witness :
  ∃ m1 m2,
    GetRing "s1" "g" NewRegistry = Some (1%positive, m1) ∧
    run_ops [op_Push 1%positive {| Ts := 1000; Val := 1.5 |};
             op_get_or_create Counter "s1" "g";
             op_get_or_create Gauge "s1" "other"] m1 = Some m2 ∧
    GetRing "s1" "g" m2 = Some (1%positive, m2).
Proof.
  do 2 eexists. split; [vm_compute; reflexivity|].
  split; [vm_compute; reflexivity|].
  eapply (proj2 (get_or_create_idempotent Gauge "s1" "g" NewRegistry) 1%positive _
           [op_Push 1%positive {| Ts := 1000; Val := 1.5 |};
            op_get_or_create Counter "s1" "g";
            op_get_or_create Gauge "s1" "other"]).
  - vm_compute. reflexivity.
  - vm_compute. reflexivity.
Defined.

Lemma ring_ok_rep r : ring_ok r → idx r = 0 → ring_rep (size r) [] r.
Proof.
  intros (Hsz & Hlen & Hidx) H0. split; [done|done|done|].
  intros i _ Hi. simpl in Hi. lia.
Qed.

Lemma NewHistogramRing_rep C :
  0 ≤ C < 2 ^ 63 → ∃ r, NewHistogramRing C = Some r ∧ hring_rep C [] r.
Proof.
  intros HC. unfold NewHistogramRing.
  destruct (Z.ltb_spec C 0); [lia|].
  eexists; split; [done|].
  split; simpl.
  - apply to_uint64_small. lia.
  - done.
  - by rewrite length_replicate.
  - intros i _ Hi. simpl in Hi. lia.
Qed.

Lemma hring_ok_rep r : hring_ok r → hidx r = 0 → hring_rep (hsize r) [] r.
Proof.
  intros (Hsz & Hlen & Hidx) H0. split; [done|done|done|].
  intros i _ Hi. simpl in Hi. lia.
Qed.

Lemma HistogramRing_Push_rep C H r h :
  0 < C → Z.of_nat (length H) + 1 < 2 ^ 64 → hring_rep C H r →
  ∃ r', HistogramRing_Push h r = Some r' ∧ hring_rep C (H ++ [h]) r'.
Proof.
  intros HC HN [Hsz Hidx Hlen Hwin].
  unfold HistogramRing_Push, hslot. rewrite Hsz, Hidx.
  destruct (Z.eqb_spec C 0); [lia|]. simpl.
  set (j := Z.to_nat (Z.of_nat (length H) mod C)).
  assert (j < Z.to_nat C)%nat as Hj.
  { unfold j. pose proof (Z.mod_pos_bound (Z.of_nat (length H)) C HC). lia. }
  rewrite decide_True by lia.
  eexists; split; [done|].
  split; simpl.
  - done.
  - rewrite to_uint64_small by lia. rewrite length_app. simpl. lia.
  - by rewrite length_insert.
  - intros i Hlo Hhi. rewrite length_app in Hlo, Hhi. simpl in Hlo, Hhi.
    destruct (decide (i = length H)) as [->|Hne].
    + fold j. rewrite list_lookup_insert_eq by lia.
      by rewrite list_lookup_middle.
    + rewrite list_lookup_insert_ne.
      * rewrite lookup_app_l by lia. apply Hwin; lia.
      * unfold j. intros Heq. apply Z2Nat.inj in Heq.
        -- symmetry in Heq. revert Heq. apply mod_slots_differ; lia.
        -- apply Z.mod_pos_bound; lia.
        -- apply Z.mod_pos_bound; lia.
Qed.

(** Every ring of the registry has a history: the slots that its write
    index has passed, read in the order of the index. *)
Lemma ring_ok_history r :
  ring_ok r → ∃ S, ring_rep (size r) S r.
Proof.
  intros (Hsz & Hlen & Hidx).
  exists ((λ i : nat, default Sample_zero
                        (data r !! Z.to_nat (Z.of_nat i mod size r)))
            <$> seq 0 (Z.to_nat (idx r))).
  split.
  - done.
  - rewrite length_fmap, length_seq. lia.
  - done.
  - intros i _ Hi. rewrite length_fmap, length_seq in Hi.
    rewrite list_lookup_fmap, lookup_seq_lt by done. simpl.
    destruct (lookup_lt_is_Some_2 (data r) (Z.to_nat (Z.of_nat i mod size r)))
      as [s ->]; [|done].
    rewrite Hlen. pose proof (Z.mod_pos_bound (Z.of_nat i) (size r) Hsz). lia.
Qed.

Lemma hring_ok_history r :
  hring_ok r → ∃ H, hring_rep (hsize r) H r.
Proof.
  intros (Hsz & Hlen & Hidx).
  exists ((λ i : nat, default HistogramData_zero
                        (hdata r !! Z.to_nat (Z.of_nat i mod hsize r)))
            <$> seq 0 (Z.to_nat (hidx r))).
  split.
  - done.
  - rewrite length_fmap, length_seq. lia.
  - done.
  - intros i _ Hi. rewrite length_fmap, length_seq in Hi.
    rewrite list_lookup_fmap, lookup_seq_lt by done. simpl.
    destruct (lookup_lt_is_Some_2 (hdata r) (Z.to_nat (Z.of_nat i mod hsize r)))
      as [s ->]; [|done].
    rewrite Hlen. pose proof (Z.mod_pos_bound (Z.of_nat i) (hsize r) Hsz). lia.
Qed.

(** In a well-formed registry every key has histories. *)
Lemma histories_exist m key :
  mem_wf m →
  ∃ G C H, gauge_history m key G ∧ counter_history m key C ∧
           histogram_history m key H.
Proof.
  intros Hwf.
  assert (∃ G, gauge_history m key G) as [G HG].
  { unfold gauge_history, ring_history.
    destruct (gauges (reg m) !! key) as [l|] eqn:Hk; [|by eexists].
    destruct (wf_gauges m Hwf _ _ Hk) as (r & Hr & Hok).
    destruct (ring_ok_history r Hok) as [S HS]. eauto. }
  assert (∃ C, counter_history m key C) as [C HC].
  { unfold counter_history, ring_history.
    destruct (counters (reg m) !! key) as [l|] eqn:Hk; [|by eexists].
    destruct (wf_counters m Hwf _ _ Hk) as (r & Hr & Hok).
    destruct (ring_ok_history r Hok) as [S HS]. eauto. }
  assert (∃ H, histogram_history m key H) as [H HH].
  { unfold histogram_history.
    destruct (histograms (reg m) !! key) as [l|] eqn:Hk; [|by eexists].
    destruct (wf_histograms m Hwf _ _ Hk) as (r & Hr & Hok).
    destruct (hring_ok_history r Hok) as [S HS]. eauto. }
  by exists G, C, H.
Qed.

Lemma HistogramRing_Latest_rep C H r :
  H = [] ∨ 0 < C → Z.of_nat (length H) < 2 ^ 64 → hring_rep C H r →
  HistogramRing_Latest r = Some (match last H with
                                 | Some h => (h, true)
                                 | None => (HistogramData_zero, false)
                                 end).
Proof.
  intros HC HN [Hsz Hidx Hlen Hwin]. unfold HistogramRing_Latest, hslot.
  rewrite Hsz, Hidx.
  destruct H as [|h0 H'] using rev_ind; [done|]. clear IHH'.
  destruct HC as [Hnil|HC]; [by destruct H'|].
  rewrite last_snoc. rewrite length_app in *. simpl in *.
  destruct (Z.eqb_spec (Z.of_nat (length H' + 1)) 0); [lia|].
  destruct (Z.eqb_spec C 0); [lia|]. simpl.
  rewrite to_uint64_small by lia.
  replace (Z.of_nat (length H' + 1) - 1) with (Z.of_nat (length H')) by lia.
  rewrite Hwin by lia. by rewrite list_lookup_middle.
Qed.

Lemma table_inj_insert (table : gmap MetricKey loc) key l :
  table_inj table → (∀ k, table !! k ≠ Some l) →
  table_inj (<[key := l]> table).
Proof.
  intros Hinj Hfresh k k' l0 H1 H2.
  destruct (decide (k = key)) as [->|Hk], (decide (k' = key)) as [->|Hk'].
  - done.
  - rewrite lookup_insert_eq in H1. injection H1 as <-.
    rewrite lookup_insert_ne in H2 by congruence. by destruct (Hfresh k').
  - rewrite lookup_insert_eq in H2. injection H2 as <-.
    rewrite lookup_insert_ne in H1 by congruence. by destruct (Hfresh k).
  - rewrite lookup_insert_ne in H1 by congruence.
    rewrite lookup_insert_ne in H2 by congruence. by eapply Hinj.
Qed.

Lemma GetRing_distinct service name m l m1 :
  mem_wf m → mem_distinct m → GetRing service name m = Some (l, m1) →
  mem_distinct m1 ∧
  ∀ k, k ≠ {| Service := service; Name := name |} →
       gauges (reg m1) !! k = gauges (reg m) !! k.
Proof.
  intros Hwf (Hg & Hc & Hh) Hget.
  destruct (gauges (reg m) !! {| Service := service; Name := name |}) as [l0|] eqn:Hk.
  - rewrite (GetRing_present _ _ _ _ Hk) in Hget. by simplify_eq.
  - destruct (GetRing_absent _ _ _ Hk) as (r & _ & Hget').
    rewrite Hget' in Hget. injection Hget as <- <-. simpl. split.
    + split; [|done]. apply table_inj_insert; [done|].
      intros k Hl. destruct (wf_gauges m Hwf _ _ Hl) as (r0 & Hr0 & _).
      by rewrite fresh_ring_None in Hr0.
    + intros k Hne. by rewrite lookup_insert_ne.
Qed.

Lemma GetCounterRing_distinct service name m l m1 :
  mem_wf m → mem_distinct m → GetCounterRing service name m = Some (l, m1) →
  mem_distinct m1 ∧
  ∀ k, k ≠ {| Service := service; Name := name |} →
       counters (reg m1) !! k = counters (reg m) !! k.
Proof.
  intros Hwf (Hg & Hc & Hh) Hget.
  destruct (counters (reg m) !! {| Service := service; Name := name |}) as [l0|] eqn:Hk.
  - rewrite (GetCounterRing_present _ _ _ _ Hk) in Hget. by simplify_eq.
  - destruct (GetCounterRing_absent _ _ _ Hk) as (r & _ & Hget').
    rewrite Hget' in Hget. injection Hget as <- <-. simpl. split.
    + split; [done|]. split; [|done]. apply table_inj_insert; [done|].
      intros k Hl. destruct (wf_counters m Hwf _ _ Hl) as (r0 & Hr0 & _).
      by rewrite fresh_ring_None in Hr0.
    + intros k Hne. by rewrite lookup_insert_ne.
Qed.

Lemma GetHistogramRing_distinct service name m l m1 :
  mem_wf m → mem_distinct m → GetHistogramRing service name m = Some (l, m1) →
  mem_distinct m1 ∧
  ∀ k, k ≠ {| Service := service; Name := name |} →
       histograms (reg m1) !! k = histograms (reg m) !! k.
Proof.
  intros Hwf (Hg & Hc & Hh) Hget.
  destruct (histograms (reg m) !! {| Service := service; Name := name |}) as [l0|] eqn:Hk.
  - rewrite (GetHistogramRing_present _ _ _ _ Hk) in Hget. by simplify_eq.
  - destruct (GetHistogramRing_absent _ _ _ Hk) as (r & _ & Hget').
    rewrite Hget' in Hget. injection Hget as <- <-. simpl. split.
    + split; [done|]. split; [done|]. apply table_inj_insert; [done|].
      intros k Hl. destruct (wf_histograms m Hwf _ _ Hl) as (r0 & Hr0 & _).
      by rewrite fresh_ring_None in Hr0.
    + intros k Hne. by rewrite lookup_insert_ne.
Qed.

Lemma NewRegistry_distinct : mem_distinct NewRegistry.
Proof. repeat split; intros k k' l H; simpl in H; by rewrite lookup_empty in H. Qed.

Lemma ring_history_frame table table' m m' key S :
  table' !! key = table !! key →
  (∀ l, table !! key = Some l → rings m' !! l = rings m !! l) →
  ring_history table m key S → ring_history table' m' key S.
Proof.
  unfold ring_history. intros -> Hrings.
  destruct (table !! key) as [l|]; [|done].
  by rewrite (Hrings l eq_refl).
Qed.

Lemma histogram_history_frame m m' key H :
  histograms (reg m') !! key = histograms (reg m) !! key →
  (∀ l, histograms (reg m) !! key = Some l → hrings m' !! l = hrings m !! l) →
  histogram_history m key H → histogram_history m' key H.
Proof.
  unfold histogram_history. intros -> Hrings.
  destruct (histograms (reg m) !! key) as [l|]; [|done].
  by rewrite (Hrings l eq_refl).
Qed.

End buffer_facts.

(** ** Ingest *)

Module ingest_facts.
Import buffer buffer_spec ingest_spec buffer_facts.

Lemma processSample_wf service name sample m :
  mem_wf m →
  ∃ m', ingest.processSample service name sample m = Some m' ∧ mem_wf m'.
Proof.
  intros Hwf. unfold ingest.processSample.
  destruct (ingest.Value sample) as [[v|v|v]|].
  - destruct (GetRing_wf service name m Hwf)
      as (l & m1 & r & -> & Hwf1 & _ & Hk & _ & _ & _ & Hr & _). simpl.
    destruct (wf_gauges m1 Hwf1 _ _ Hk) as (r0 & Hr0 & Hok).
    rewrite Hr in Hr0. injection Hr0 as <-.
    destruct (Ring_Push_at_wf l {| Ts := to_int (ingest.TimestampNs sample); Val := v |}
                m1 r Hwf1 Hr Hok) as (r' & _ & _ & -> & Hwf2).
    eauto.
  - destruct (GetCounterRing_wf service name m Hwf)
      as (l & m1 & r & -> & Hwf1 & _ & Hk & _ & _ & _ & Hr & _). simpl.
    destruct (wf_counters m1 Hwf1 _ _ Hk) as (r0 & Hr0 & Hok).
    rewrite Hr in Hr0. injection Hr0 as <-.
    destruct (Ring_Push_at_wf l {| Ts := to_int (ingest.TimestampNs sample);
                                   Val := float64_of_uint64 v |}
                m1 r Hwf1 Hr Hok) as (r' & _ & _ & -> & Hwf2).
    eauto.
  - destruct (GetHistogramRing_wf service name m Hwf)
      as (l & m1 & r & -> & Hwf1 & _ & Hk & _ & _ & _ & Hr & Hok & _). simpl.
    destruct (HistogramRing_Push_at_wf l
                {| HTs := to_int (ingest.TimestampNs sample);
                   Bounds := ingest.Bounds v; Counts := ingest.Counts v |}
                m1 r Hwf1 Hr Hok) as (r' & _ & _ & -> & Hwf2).
    eauto.
  - eauto.
Qed.

(** C1, as amended.  The registry keeps one table per variant and
    binds no key to a variant.  In a registry that holds a gauge ring
    for (service, name), a counter sample for the same key is accepted:
    no error is raised and no conflict is counted, the gauge table and
    every gauge ring are as before, the counter table gets a ring of
    its own for the key, and the latest snapshot has the gauges it had
    and a counters entry for the key, the sample just pushed (as long
    as the write index of the counter ring does not wrap). *)
Theorem counter_after_gauge_accepted service name ts c m lg :
  mem_wf m →
  gauges (reg m) !! {| Service := service; Name := name |} = Some lg →
  (∀ lc r, counters (reg m) !! {| Service := service; Name := name |} = Some lc →
           rings m !! lc = Some r → idx r + 1 < 2 ^ 64) →
  ∃ m' lc snap0 snap,
    ingest.processSample service name
      {| ingest.TimestampNs := ts;
         ingest.Value := Some (ingest.MetricSample_Counter c) |} m = Some m' ∧
    gauges (reg m') = gauges (reg m) ∧
    (∀ k l, gauges (reg m) !! k = Some l → rings m' !! l = rings m !! l) ∧
    counters (reg m') !! {| Service := service; Name := name |} = Some lc ∧
    lc ≠ lg ∧
    Registry_LatestSnapshot m = Some snap0 ∧
    Registry_LatestSnapshot m' = Some snap ∧
    Gauges snap = Gauges snap0 ∧
    Counters snap !! {| Service := service; Name := name |} =
      Some {| Ts := to_int ts; Val := float64_of_uint64 c |}.
Proof.
  intros Hwf Hg Hroom. unfold ingest.processSample. simpl.
  destruct (GetCounterRing_wf service name m Hwf)
    as (lc & m1 & r & -> & Hwf1 & Hext & Hk & Hg1 & _ & _ & Hr & Hcase). simpl.
  destruct (wf_counters m1 Hwf1 _ _ Hk) as (r0 & Hr0 & Hok).
    rewrite Hr in Hr0. injection Hr0 as <-.
  destruct (Ring_Push_at_wf lc {| Ts := to_int ts; Val := float64_of_uint64 c |}
              m1 r Hwf1 Hr Hok) as (r' & Hpush & Hok' & -> & Hwf2).
  set (m2 := {| reg := reg m1; rings := <[lc := r']> (rings m1); hrings := hrings m1 |}).
  assert (∀ k l, gauges (reg m) !! k = Some l → rings m2 !! l = rings m !! l) as Hframe.
  { intros k l Hl. simpl.
    destruct (wf_gauges m Hwf _ _ Hl) as (rl & Hrl & _).
    rewrite lookup_insert_ne.
    - rewrite Hrl. by apply (lookup_weaken _ _ _ _ Hrl), Hext.
    - intros <-. apply (wf_separate m1 Hwf1 k {| Service := service; Name := name |} lc);
        [by rewrite Hg1|done]. }
  assert (idx r + 1 < 2 ^ 64) as Hidx.
  { destruct Hcase as [[Hold ->]|[_ ->]]; [by eapply Hroom|done]. }
  exists m2, lc. do 2 eexists.
  split; [done|]. split; [done|]. split; [done|]. split; [done|].
  split.
  { intros <-. apply (wf_separate m1 Hwf1 {| Service := service; Name := name |}
                        {| Service := service; Name := name |} lc); [by rewrite Hg1|done]. }
  split; [by apply Registry_LatestSnapshot_wf|].
  split; [by apply Registry_LatestSnapshot_wf|].
  simpl. split.
  - rewrite Hg1. apply map_eq. intros k. rewrite !lookup_omap.
    destruct (gauges (reg m) !! k) as [l|] eqn:Hl; [|done]. simpl.
    unfold Latest_at. by rewrite (Hframe k l Hl).
  - rewrite lookup_omap, Hk. simpl. unfold Latest_at. simpl.
    rewrite lookup_insert_eq. simpl.
    by rewrite (Latest_Push _ r r' Hok Hidx Hpush).
Qed.

Lemma counter_after_gauge_accepted_witness :
  ∃ m m' snap,
    ingest.processSample "s1" "x" (gauge_sample 1000 1.5) NewRegistry = Some m ∧
    ingest.processSample "s1" "x" (counter_sample 2000 7) m = Some m' ∧
    Registry_LatestSnapshot m' = Some snap ∧
    Gauges snap !! (mkey "s1" "x") = Some {| Ts := 1000; Val := 1.5 |} ∧
    Counters snap !! (mkey "s1" "x") = Some {| Ts := 2000; Val := 7 |}.
Proof.
  destruct (processSample_wf "s1" "x" (gauge_sample 1000 1.5) NewRegistry NewRegistry_wf)
    as (m & Hm & Hwf).
  assert (gauges (reg m) !! (mkey "s1" "x") = Some 1%positive) as Hg.
  { vm_compute in Hm. injection Hm as <-. reflexivity. }
  assert (counters (reg m) !! (mkey "s1" "x") = None) as Hc.
  { vm_compute in Hm. injection Hm as <-. reflexivity. }
  destruct (counter_after_gauge_accepted "s1" "x" 2000 7 m 1%positive Hwf Hg)
    as (m' & lc & snap0 & snap & Hrun & _ & _ & _ & _ & Hsnap0 & Hsnap & HG & HC).
  { intros lc r Hlc. unfold mkey in Hc. rewrite Hc in Hlc. discriminate. }
  exists m, m', snap. split; [exact Hm|]. split; [exact Hrun|]. split; [exact Hsnap|].
  split; [|exact HC].
  rewrite HG. vm_compute in Hm. injection Hm as <-.
  vm_compute in Hsnap0. injection Hsnap0 as <-. reflexivity.
Defined.

Lemma variant_conflict_counterexample :
  ∃ m m' snap,
    ingest.processSample "s1" "x" (gauge_sample 1000 1.5) NewRegistry = Some m ∧
    ingest.processSample "s1" "x" (counter_sample 2000 7) m = Some m' ∧
    Registry_LatestSnapshot m' = Some snap ∧
    Counters snap !! (mkey "s1" "x") = Some {| Ts := 2000; Val := 7 |} ∧
    Counters snap !! (mkey "s1" "x") ≠ None.
Proof.
  do 3 eexists. split; [vm_compute; reflexivity|].
  split; [vm_compute; reflexivity|].
  split; [vm_compute; reflexivity|].
  split; [vm_compute; reflexivity|].
  vm_compute. discriminate.
Qed.

(** C5, as amended.  The ingest path checks no lengths: every
    histogram sample is accepted and stored as sent, with the [Bounds]
    and the [Counts] of the sample received, whatever their lengths;
    so a stored [HistogramData] has [Counts] as long as [Bounds] only
    when the sample sent had. *)
Theorem histogram_stored_as_sent service name ts bounds counts m :
  mem_wf m →
  ∃ m' l r',
    ingest.processSample service name (histogram_sample ts bounds counts) m = Some m' ∧
    histograms (reg m') !! {| Service := service; Name := name |} = Some l ∧
    hrings m' !! l = Some r' ∧
    {| HTs := to_int ts; Bounds := bounds; Counts := counts |} ∈ hdata r'.
Proof.
  intros Hwf. unfold ingest.processSample, histogram_sample. simpl.
  destruct (GetHistogramRing_wf service name m Hwf)
    as (l & m1 & r & -> & Hwf1 & _ & Hk & _ & _ & _ & Hr & Hok & _). simpl.
  destruct (HistogramRing_Push_at_wf l
              {| HTs := to_int ts; Bounds := bounds; Counts := counts |}
              m1 r Hwf1 Hr Hok) as (r' & Hpush & _ & -> & _).
  destruct (HistogramRing_Push_ok
              {| HTs := to_int ts; Bounds := bounds; Counts := counts |} r Hok)
    as (r'' & Hpush' & _ & Hin & _).
  rewrite Hpush in Hpush'. injection Hpush' as <-.
  exists {| reg := reg m1; rings := rings m1; hrings := <[l := r']> (hrings m1) |}, l, r'.
  split; [done|]. split; [done|]. split; [|done].
  simpl. apply lookup_insert_eq.
Qed.

Lemma histogram_stored_as_sent_witness :
  ∃ m' l r',
    ingest.processSample "s1" "h" (histogram_sample 5 [1; 2]%float [7]) NewRegistry
      = Some m' ∧
    histograms (reg m') !! {| Service := "s1"; Name := "h" |} = Some l ∧
    hrings m' !! l = Some r' ∧
    {| HTs := 5; Bounds := [1; 2]%float; Counts := [7] |} ∈ hdata r'.
Proof.
  apply (histogram_stored_as_sent "s1" "h" 5 [1; 2]%float [7] NewRegistry).
  apply NewRegistry_wf.
Defined.

Lemma histogram_lengths_counterexample :
  ∃ m snap h,
    ingest.processSample "s1" "h" (histogram_sample 5 [1; 2]%float [7]) NewRegistry
      = Some m ∧
    Registry_LatestSnapshot m = Some snap ∧
    Histograms snap !! {| Service := "s1"; Name := "h" |} = Some h ∧
    length (Counts h) ≠ length (Bounds h).
Proof.
  do 3 eexists. split; [vm_compute; reflexivity|].
  split; [vm_compute; reflexivity|].
  split; [vm_compute; reflexivity|].
  vm_compute. discriminate.
Qed.

Lemma foldl_bind_invariant {A B} (f : B → A → option A) (P : A → Prop) l a :
  (∀ x a, P a → ∃ a', f x a = Some a' ∧ P a') → P a →
  ∃ a', foldl (λ acc x, acc ≫= f x) (Some a) l = Some a' ∧ P a'.
Proof.
  intros Hstep. revert a. induction l as [|x l IH]; intros a Ha; simpl.
  - eauto.
  - destruct (Hstep x a Ha) as (a1 & -> & Ha1). by apply IH.
Qed.

Lemma processMetric_wf service instance metric m :
  mem_wf m →
  ∃ m', ingest.processMetric service instance metric m = Some m' ∧ mem_wf m'.
Proof.
  intros Hwf. unfold ingest.processMetric.
  apply (foldl_bind_invariant
           (ingest.processSample service (ingest.Name metric)) mem_wf); [|done].
  intros sample m0. apply processSample_wf.
Qed.

Lemma NotifyUpdate_ok service h :
  closed (ws.updates h) = false →
  ∃ h', ws.NotifyUpdate service h = Some h' ∧
        closed (ws.updates h') = false ∧ ws.clients h' = ws.clients h.
Proof.
  intros Hopen. unfold ws.NotifyUpdate, try_send. rewrite Hopen.
  destruct (decide _); simpl; eexists; (split; [done|]); by simpl.
Qed.

Lemma processBatch_wf batch st :
  server_wf st →
  ∃ st', ingest.processBatch batch st = Some st' ∧ server_wf st'.
Proof.
  intros [Hwf Hopen]. unfold ingest.processBatch.
  destruct (foldl_bind_invariant
              (ingest.processMetric (ingest.Service batch) (ingest.Instance batch))
              mem_wf (ingest.Metrics batch) (ingest.registry st))
    as (m' & -> & Hwf'); [|done|].
  { intros metric m0. apply processMetric_wf. }
  simpl.
  destruct (NotifyUpdate_ok (ingest.Service batch) (ingest.hub st) Hopen)
    as (h' & -> & Hopen' & _).
  simpl. eexists. split; [done|]. by split.
Qed.

Lemma processBatches_wf batches st :
  server_wf st →
  ∃ st', processBatches batches st = Some st' ∧ server_wf st'.
Proof.
  revert st. induction batches as [|batch batches IH]; intros st Hwf; simpl.
  - eauto.
  - destruct (processBatch_wf batch st Hwf) as (st1 & -> & Hwf1). by apply IH.
Qed.

Lemma StreamTelemetry_batches batches recvs send_result st st' :
  processBatches batches st = Some st' →
  ingest.StreamTelemetry (map inl batches ++ recvs) send_result st =
    ingest.StreamTelemetry recvs send_result st'.
Proof.
  revert st. induction batches as [|batch batches IH]; intros st Hrun; simpl in *.
  - by injection Hrun as <-.
  - destruct (ingest.processBatch batch st) as [st1|]; [|done]. simpl in *.
    by apply IH.
Qed.

(** The effect of one sample on the registry: the tables keep their
    entries and gain at most the key of the sample, and no ring of
    another key or variant is written. *)
Lemma processSample_frame service name sample m m' :
  mem_wf m → mem_distinct m →
  ingest.processSample service name sample m = Some m' →
  mem_distinct m' ∧
  (∀ v k, (variant_of sample = Some v → k ≠ {| Service := service; Name := name |}) →
          table_of v m' !! k = table_of v m !! k) ∧
  (∀ v k l, table_of v m !! k = Some l →
            (variant_of sample = Some v → k ≠ {| Service := service; Name := name |}) →
            match v with
            | Histogram => hrings m' !! l = hrings m !! l
            | _ => rings m' !! l = rings m !! l
            end).
Proof.
  intros Hwf Hdist. unfold ingest.processSample, variant_of.
  destruct (ingest.Value sample) as [[x|x|x]|]; intros Hrun.
  - destruct (GetRing_wf service name m Hwf)
      as (l0 & m1 & r & Hget & Hwf1 & Hext & Hk & Hc1 & Hh1 & Hhr1 & Hr & _).
    rewrite Hget in Hrun. simpl in Hrun.
    destruct (GetRing_distinct _ _ _ _ _ Hwf Hdist Hget) as [Hdist1 Hother].
    unfold Ring_Push_at in Hrun. rewrite Hr in Hrun. simpl in Hrun.
    destruct (Push _ r) as [r'|]; [|done]. simpl in Hrun. injection Hrun as <-.
    split; [done|]. simpl. split.
    + intros [] k Hne; simpl; [apply Hother; by apply Hne|by rewrite Hc1|by rewrite Hh1].
    + intros v k l Hl Hne.
      assert (∀ rr, rings m !! l = Some rr → rings m1 !! l = Some rr) as Hkeep.
      { intros rr Hrr. by apply (lookup_weaken _ _ _ _ Hrr), Hext. }
      destruct v; simpl in *.
      * destruct (wf_gauges m Hwf _ _ Hl) as (rl & Hrl & _).
        rewrite lookup_insert_ne; [by rewrite Hrl, (Hkeep _ Hrl)|].
        intros <-. apply (Hne eq_refl).
        destruct Hdist1 as (Hinj & _). eapply Hinj; [|exact Hk].
        by apply (lookup_weaken _ _ _ _ Hl), Hext.
      * destruct (wf_counters m Hwf _ _ Hl) as (rl & Hrl & _).
        rewrite lookup_insert_ne; [by rewrite Hrl, (Hkeep _ Hrl)|].
        intros <-. eapply (wf_separate m1 Hwf1); [exact Hk|].
        rewrite Hc1. exact Hl.
      * by rewrite Hhr1.
  - destruct (GetCounterRing_wf service name m Hwf)
      as (l0 & m1 & r & Hget & Hwf1 & Hext & Hk & Hg1 & Hh1 & Hhr1 & Hr & _).
    rewrite Hget in Hrun. simpl in Hrun.
    destruct (GetCounterRing_distinct _ _ _ _ _ Hwf Hdist Hget) as [Hdist1 Hother].
    unfold Ring_Push_at in Hrun. rewrite Hr in Hrun. simpl in Hrun.
    destruct (Push _ r) as [r'|]; [|done]. simpl in Hrun. injection Hrun as <-.
    split; [done|]. simpl. split.
    + intros [] k Hne; simpl; [by rewrite Hg1|apply Hother; by apply Hne|by rewrite Hh1].
    + intros v k l Hl Hne.
      assert (∀ rr, rings m !! l = Some rr → rings m1 !! l = Some rr) as Hkeep.
      { intros rr Hrr. by apply (lookup_weaken _ _ _ _ Hrr), Hext. }
      destruct v; simpl in *.
      * destruct (wf_gauges m Hwf _ _ Hl) as (rl & Hrl & _).
        rewrite lookup_insert_ne; [by rewrite Hrl, (Hkeep _ Hrl)|].
        intros <-. eapply (wf_separate m1 Hwf1); [|exact Hk].
        rewrite Hg1. exact Hl.
      * destruct (wf_counters m Hwf _ _ Hl) as (rl & Hrl & _).
        rewrite lookup_insert_ne; [by rewrite Hrl, (Hkeep _ Hrl)|].
        intros <-. apply (Hne eq_refl).
        destruct Hdist1 as (_ & Hinj & _). eapply Hinj; [|exact Hk].
        by apply (lookup_weaken _ _ _ _ Hl), Hext.
      * by rewrite Hhr1.
  - destruct (GetHistogramRing_wf service name m Hwf)
      as (l0 & m1 & r & Hget & Hwf1 & Hext & Hk & Hg1 & Hc1 & Hr1 & Hr & _).
    rewrite Hget in Hrun. simpl in Hrun.
    destruct (GetHistogramRing_distinct _ _ _ _ _ Hwf Hdist Hget) as [Hdist1 Hother].
    unfold HistogramRing_Push_at in Hrun. rewrite Hr in Hrun. simpl in Hrun.
    destruct (HistogramRing_Push _ r) as [r'|]; [|done]. simpl in Hrun.
    injection Hrun as <-.
    split; [done|]. simpl. split.
    + intros [] k Hne; simpl; [by rewrite Hg1|by rewrite Hc1|apply Hother; by apply Hne].
    + intros v k l Hl Hne. destruct v; simpl in *; [by rewrite Hr1..|].
      destruct (wf_histograms m Hwf _ _ Hl) as (rl & Hrl & _).
      rewrite lookup_insert_ne.
      * rewrite Hrl. by apply (lookup_weaken _ _ _ _ Hrl), Hext.
      * intros <-. apply (Hne eq_refl).
        destruct Hdist1 as (_ & _ & Hinj). eapply Hinj; [|exact Hk].
        by apply (lookup_weaken _ _ _ _ Hl), Hext.
  - injection Hrun as <-. split; [done|]. split; [done|].
    intros v k l _ _. by destruct v.
Qed.

(** A gauge sample reaches the ring of its key, and nothing else
    changes the gauge history of a key. *)
Lemma processSample_gauge_history key service name sample m m' S :
  mem_wf m → mem_distinct m → gauge_history m key S →
  Z.of_nat (length (S ++ option_list
                           (if decide ({| Service := service; Name := name |} = key)
                            then gauge_of sample else None))) < 2 ^ 64 →
  ingest.processSample service name sample m = Some m' →
  gauge_history m' key
    (S ++ option_list (if decide ({| Service := service; Name := name |} = key)
                       then gauge_of sample else None)).
Proof.
  intros Hwf Hdist Hhist HN Hrun. revert HN.
  destruct (processSample_frame _ _ _ _ _ Hwf Hdist Hrun) as (_ & Htab & Hring).
  assert ((variant_of sample = Some Gauge → key ≠ {| Service := service; Name := name |}) →
          gauge_history m' key S) as Hframe.
  { intros Hne. eapply ring_history_frame; [| |exact Hhist].
    - apply (Htab Gauge key Hne).
    - intros l Hl. apply (Hring Gauge key l Hl Hne). }
  destruct (decide ({| Service := service; Name := name |} = key)) as [<-|Hne];
    [|rewrite app_nil_r; intros _; apply Hframe; congruence].
  unfold gauge_of, variant_of in *.
  destruct (ingest.Value sample) as [[v|v|v]|] eqn:Hv;
    try (rewrite app_nil_r; intros _; apply Hframe; congruence).
  simpl. rewrite length_app. simpl. intros HN. clear Hframe Htab Hring.
  unfold ingest.processSample in Hrun. rewrite Hv in Hrun.
  destruct (GetRing_wf service name m Hwf)
    as (l & m1 & r & Hget & Hwf1 & _ & Hk & _ & _ & _ & Hr & Hcase).
  rewrite Hget in Hrun. simpl in Hrun.
  destruct (wf_gauges m1 Hwf1 _ _ Hk) as (r0 & Hr0 & Hok).
  rewrite Hr in Hr0. injection Hr0 as <-.
  assert (ring_rep (size r) S r) as Hrep.
  { unfold gauge_history, ring_history in Hhist.
    destruct Hcase as [[Hold ->]|[Hnew Hidx]].
    - rewrite Hold in Hhist. destruct Hhist as (r0 & Hr0 & Hrep0).
      rewrite Hr in Hr0. by injection Hr0 as <-.
    - rewrite Hnew in Hhist. subst S. by apply ring_ok_rep. }
  destruct (Push_rep (size r) S r
              {| Ts := to_int (ingest.TimestampNs sample); Val := v |})
    as (r' & Hpush & Hrep'); [apply Hok|lia|done|].
  unfold Ring_Push_at in Hrun. rewrite Hr in Hrun. simpl in Hrun.
  rewrite Hpush in Hrun. simpl in Hrun. injection Hrun as <-.
  unfold gauge_history, ring_history. simpl. rewrite Hk.
  exists r'. rewrite lookup_insert_eq. split; [done|].
  by rewrite (rep_size _ _ _ Hrep').
Qed.

Lemma processSample_counter_history key service name sample m m' S :
  mem_wf m → mem_distinct m → counter_history m key S →
  Z.of_nat (length (S ++ option_list
                           (if decide ({| Service := service; Name := name |} = key)
                            then counter_of sample else None))) < 2 ^ 64 →
  ingest.processSample service name sample m = Some m' →
  counter_history m' key
    (S ++ option_list (if decide ({| Service := service; Name := name |} = key)
                       then counter_of sample else None)).
Proof.
  intros Hwf Hdist Hhist HN Hrun. revert HN.
  destruct (processSample_frame _ _ _ _ _ Hwf Hdist Hrun) as (_ & Htab & Hring).
  assert ((variant_of sample = Some Counter → key ≠ {| Service := service; Name := name |}) →
          counter_history m' key S) as Hframe.
  { intros Hne. eapply ring_history_frame; [| |exact Hhist].
    - apply (Htab Counter key Hne).
    - intros l Hl. apply (Hring Counter key l Hl Hne). }
  destruct (decide ({| Service := service; Name := name |} = key)) as [<-|Hne];
    [|rewrite app_nil_r; intros _; apply Hframe; congruence].
  unfold counter_of, variant_of in *.
  destruct (ingest.Value sample) as [[v|v|v]|] eqn:Hv;
    try (rewrite app_nil_r; intros _; apply Hframe; congruence).
  simpl. rewrite length_app. simpl. intros HN. clear Hframe Htab Hring.
  unfold ingest.processSample in Hrun. rewrite Hv in Hrun.
  destruct (GetCounterRing_wf service name m Hwf)
    as (l & m1 & r & Hget & Hwf1 & _ & Hk & _ & _ & _ & Hr & Hcase).
  rewrite Hget in Hrun. simpl in Hrun.
  destruct (wf_counters m1 Hwf1 _ _ Hk) as (r0 & Hr0 & Hok).
  rewrite Hr in Hr0. injection Hr0 as <-.
  assert (ring_rep (size r) S r) as Hrep.
  { unfold counter_history, ring_history in Hhist.
    destruct Hcase as [[Hold ->]|[Hnew Hidx]].
    - rewrite Hold in Hhist. destruct Hhist as (r0 & Hr0 & Hrep0).
      rewrite Hr in Hr0. by injection Hr0 as <-.
    - rewrite Hnew in Hhist. subst S. by apply ring_ok_rep. }
  destruct (Push_rep (size r) S r
              {| Ts := to_int (ingest.TimestampNs sample);
                 Val := float64_of_uint64 v |})
    as (r' & Hpush & Hrep'); [apply Hok|lia|done|].
  unfold Ring_Push_at in Hrun. rewrite Hr in Hrun. simpl in Hrun.
  rewrite Hpush in Hrun. simpl in Hrun. injection Hrun as <-.
  unfold counter_history, ring_history. simpl. rewrite Hk.
  exists r'. rewrite lookup_insert_eq. split; [done|].
  by rewrite (rep_size _ _ _ Hrep').
Qed.

Lemma processSample_histogram_history key service name sample m m' H :
  mem_wf m → mem_distinct m → histogram_history m key H →
  Z.of_nat (length (H ++ option_list
                           (if decide ({| Service := service; Name := name |} = key)
                            then histogram_of sample else None))) < 2 ^ 64 →
  ingest.processSample service name sample m = Some m' →
  histogram_history m' key
    (H ++ option_list (if decide ({| Service := service; Name := name |} = key)
                       then histogram_of sample else None)).
Proof.
  intros Hwf Hdist Hhist HN Hrun. revert HN.
  destruct (processSample_frame _ _ _ _ _ Hwf Hdist Hrun) as (_ & Htab & Hring).
  assert ((variant_of sample = Some Histogram →
           key ≠ {| Service := service; Name := name |}) →
          histogram_history m' key H) as Hframe.
  { intros Hne. eapply histogram_history_frame; [| |exact Hhist].
    - apply (Htab Histogram key Hne).
    - intros l Hl. apply (Hring Histogram key l Hl Hne). }
  destruct (decide ({| Service := service; Name := name |} = key)) as [<-|Hne];
    [|rewrite app_nil_r; intros _; apply Hframe; congruence].
  unfold histogram_of, variant_of in *.
  destruct (ingest.Value sample) as [[v|v|v]|] eqn:Hv;
    try (rewrite app_nil_r; intros _; apply Hframe; congruence).
  simpl. rewrite length_app. simpl. intros HN. clear Hframe Htab Hring.
  unfold ingest.processSample in Hrun. rewrite Hv in Hrun.
  destruct (GetHistogramRing_wf service name m Hwf)
    as (l & m1 & r & Hget & Hwf1 & _ & Hk & _ & _ & _ & Hr & Hok & Hcase).
  rewrite Hget in Hrun. simpl in Hrun.
  assert (hring_rep (hsize r) H r) as Hrep.
  { unfold histogram_history in Hhist.
    destruct Hcase as [[Hold ->]|[Hnew Hidx]].
    - rewrite Hold in Hhist. destruct Hhist as (r0 & Hr0 & Hrep0).
      rewrite Hr in Hr0. by injection Hr0 as <-.
    - rewrite Hnew in Hhist. subst H. by apply hring_ok_rep. }
  destruct (HistogramRing_Push_rep (hsize r) H r
              {| HTs := to_int (ingest.TimestampNs sample);
                 Bounds := ingest.Bounds v; Counts := ingest.Counts v |})
    as (r' & Hpush & Hrep'); [apply Hok|lia|done|].
  unfold HistogramRing_Push_at in Hrun. rewrite Hr in Hrun. simpl in Hrun.
  rewrite Hpush in Hrun. simpl in Hrun. injection Hrun as <-.
  unfold histogram_history. simpl. rewrite Hk.
  exists r'. rewrite lookup_insert_eq. split; [done|].
  by rewrite (hrep_size _ _ _ Hrep').
Qed.

Lemma store_None l : foldl store None l = None.
Proof. by induction l. Qed.

Lemma processMetric_store service instance metric acc :
  acc ≫= ingest.processMetric service instance metric =
  foldl store acc
        ((λ sample, ({| Service := service; Name := ingest.Name metric |}, sample))
           <$> ingest.Samples metric).
Proof.
  destruct acc as [m|]; simpl; [|by rewrite store_None].
  unfold ingest.processMetric. generalize (Some m).
  induction (ingest.Samples metric) as [|sample samples IH]; intros acc; [done|].
  simpl. by rewrite IH.
Qed.

Lemma processBatch_store batch st st' :
  ingest.processBatch batch st = Some st' →
  foldl store (Some (ingest.registry st)) (arrivals [batch])
    = Some (ingest.registry st').
Proof.
  unfold ingest.processBatch, arrivals. rewrite bind_singleton.
  generalize (Some (ingest.registry st)).
  induction (ingest.Metrics batch) as [|metric metrics IH]; intros acc Hrun.
  - simpl in *. destruct acc as [m|]; [|done]. simpl in Hrun.
    destruct (ws.NotifyUpdate _ _); [|done]. simpl in Hrun. by injection Hrun as <-.
  - rewrite bind_cons, foldl_app.
    rewrite <- (processMetric_store _ (ingest.Instance batch)). by apply IH.
Qed.

(** The registry after a stream of batches is the registry after their
    samples, one by one in the order of arrival. *)
Lemma processBatches_store batches st st' :
  processBatches batches st = Some st' →
  foldl store (Some (ingest.registry st)) (arrivals batches)
    = Some (ingest.registry st').
Proof.
  revert st. induction batches as [|batch batches IH]; intros st Hrun.
  - simpl in Hrun. by injection Hrun as <-.
  - simpl in Hrun.
    destruct (ingest.processBatch batch st) as [st1|] eqn:Hbatch; [|done].
    simpl in Hrun. apply processBatch_store in Hbatch.
    unfold arrivals in *. rewrite bind_cons, foldl_app.
    rewrite bind_singleton in Hbatch. rewrite Hbatch. by apply IH.
Qed.

(** A history that every sample extends by what it sends for the key is
    extended by a stream by what the stream sends for it. *)
Lemma store_history {X} (R : Mem → list X → Prop)
    (g : MetricKey * ingest.MetricSample → option X) :
  (∀ service name sample m m' S,
     mem_wf m → mem_distinct m → R m S →
     Z.of_nat (length (S ++ option_list (g ({| Service := service; Name := name |},
                                            sample)))) < 2 ^ 64 →
     ingest.processSample service name sample m = Some m' →
     R m' (S ++ option_list (g ({| Service := service; Name := name |}, sample)))) →
  ∀ l m m' S,
    mem_wf m → mem_distinct m → R m S →
    Z.of_nat (length (S ++ omap g l)) < 2 ^ 64 →
    foldl store (Some m) l = Some m' →
    R m' (S ++ omap g l).
Proof.
  intros Hstep l. induction l as [|[[service name] sample] l IH];
    intros m m' S Hwf Hdist HR HN Hrun.
  - simpl in *. injection Hrun as <-. by rewrite app_nil_r.
  - simpl in Hrun.
    destruct (ingest.processSample service name sample m) as [m1|] eqn:Hm1;
      [|by rewrite store_None in Hrun].
    destruct (processSample_wf service name sample m Hwf) as (m1' & Hm1' & Hwf1).
    rewrite Hm1 in Hm1'. injection Hm1' as <-.
    destruct (processSample_frame _ _ _ _ _ Hwf Hdist Hm1) as (Hdist1 & _).
    assert (omap g (({| Service := service; Name := name |}, sample) :: l)
            = option_list (g ({| Service := service; Name := name |}, sample))
                ++ omap g l) as Hcons.
    { simpl. by destruct (g _). }
    rewrite Hcons in *. rewrite (assoc_L (++)) in *.
    apply (IH m1); [done|done| |done|done].
    apply (Hstep service name sample m); [done|done|done| |done].
    rewrite length_app in HN. lia.
Qed.

(** C8.  On the ingest stream, after any batches, the first error of
    [Recv] ends the call: a clean end of stream ([io.EOF]), and only
    that, is answered with the one acknowledgment [Ack{Ok: true}], and
    the call returns what [SendAndClose] returns; any other error is
    returned to the caller and no acknowledgment is sent.  In both
    cases the batches received before are written to the registry (no
    rollback): the state is the one after processing them in order,
    and for every key the ring of each variant has taken, after what it
    held, the samples that the batches carry for the key and the
    variant, in the order of arrival (as long as no write index
    wraps).  While only batches arrive the call waits in [Recv] and
    sends nothing. *)
Theorem StreamTelemetry_ack_only_on_EOF batches err rest send_result st :
  server_wf st →
  ∃ st' acks result,
    processBatches batches st = Some st' ∧
    ingest.StreamTelemetry (map inl batches ++ inr err :: rest) send_result st =
      Some (st', ingest.Returned acks result) ∧
    (err = ingest.io_EOF → acks = [{| ingest.Ok := true |}] ∧ result = send_result) ∧
    (err ≠ ingest.io_EOF → acks = [] ∧ result = Some err) ∧
    ingest.StreamTelemetry (map inl batches) send_result st =
      Some (st', ingest.AwaitingRecv) ∧
    (mem_distinct (ingest.registry st) → ∀ key,
       (∀ G, gauge_history (ingest.registry st) key G →
             Z.of_nat (length (G ++ sent gauge_of key batches)) < 2 ^ 64 →
             gauge_history (ingest.registry st') key
               (G ++ sent gauge_of key batches)) ∧
       (∀ C, counter_history (ingest.registry st) key C →
             Z.of_nat (length (C ++ sent counter_of key batches)) < 2 ^ 64 →
             counter_history (ingest.registry st') key
               (C ++ sent counter_of key batches)) ∧
       (∀ H, histogram_history (ingest.registry st) key H →
             Z.of_nat (length (H ++ sent histogram_of key batches)) < 2 ^ 64 →
             histogram_history (ingest.registry st') key
               (H ++ sent histogram_of key batches))).
Proof.
  intros Hwf.
  destruct (processBatches_wf batches st Hwf) as (st' & Hrun & _).
  exists st'.
  pose proof (StreamTelemetry_batches batches [] send_result st st' Hrun) as Hidle.
  rewrite app_nil_r in Hidle. rewrite Hidle.
  rewrite (StreamTelemetry_batches batches _ send_result st st' Hrun).
  pose proof (processBatches_store batches st st' Hrun) as Hstore.
  assert (mem_distinct (ingest.registry st) → ∀ key,
       (∀ G, gauge_history (ingest.registry st) key G →
             Z.of_nat (length (G ++ sent gauge_of key batches)) < 2 ^ 64 →
             gauge_history (ingest.registry st') key
               (G ++ sent gauge_of key batches)) ∧
       (∀ C, counter_history (ingest.registry st) key C →
             Z.of_nat (length (C ++ sent counter_of key batches)) < 2 ^ 64 →
             counter_history (ingest.registry st') key
               (C ++ sent counter_of key batches)) ∧
       (∀ H, histogram_history (ingest.registry st) key H →
             Z.of_nat (length (H ++ sent histogram_of key batches)) < 2 ^ 64 →
             histogram_history (ingest.registry st') key
               (H ++ sent histogram_of key batches))) as Hwritten.
  { intros Hdist key. destruct Hwf as [Hmem _]. split; [|split].
    - intros G HG HN.
      apply (store_history (λ m, gauge_history m key)
               (λ a, if decide (a.1 = key) then gauge_of a.2 else None))
        with (m := ingest.registry st); try done.
      intros service name sample m m' S. apply processSample_gauge_history.
    - intros C HC HN.
      apply (store_history (λ m, counter_history m key)
               (λ a, if decide (a.1 = key) then counter_of a.2 else None))
        with (m := ingest.registry st); try done.
      intros service name sample m m' S. apply processSample_counter_history.
    - intros H HH HN.
      apply (store_history (λ m, histogram_history m key)
               (λ a, if decide (a.1 = key) then histogram_of a.2 else None))
        with (m := ingest.registry st); try done.
      intros service name sample m m' S. apply processSample_histogram_history. }
  simpl. destruct (decide (err = ingest.io_EOF)) as [->|Hne].
  - do 2 eexists. split_and!; done.
  - do 2 eexists. split_and!; done.
Qed.

Lemma StreamTelemetry_ack_only_on_EOF_witness :
  ∃ st',
    ingest.StreamTelemetry
      [inl one_gauge_batch; inl mixed_batch; inr (ingest.transport_error "reset")]
      None fresh_server
      = Some (st', ingest.Returned [] (Some (ingest.transport_error "reset"))) ∧
    gauge_history (ingest.registry st') (mkey "s1" "g")
      [smp 1000 1.5; smp 1000 1.5; smp 2000 2.5] ∧
    counter_history (ingest.registry st') (mkey "s1" "c") [smp 3000 7] ∧
    histogram_history (ingest.registry st') (mkey "s1" "h")
      [{| HTs := 4000; Bounds := [1; 2]%float; Counts := [3; 4; 5] |}] ∧
    (Registry_LatestSnapshot (ingest.registry st') ≫=
       λ snap, Histograms snap !! mkey "s1" "h")
      = Some {| HTs := 4000; Bounds := [1; 2]%float; Counts := [3; 4; 5] |}.
Proof.
  destruct (StreamTelemetry_ack_only_on_EOF [one_gauge_batch; mixed_batch]
              (ingest.transport_error "reset") [] None fresh_server)
    as (st' & acks & result & Hrun & Hstream & _ & Hne & _ & Hwritten).
  - split; [apply NewRegistry_wf|reflexivity].
  - destruct Hne as [-> ->]; [discriminate|].
    exists st'. split; [exact Hstream|].
    destruct (Hwritten NewRegistry_distinct (mkey "s1" "g")) as (HG & _ & _).
    destruct (Hwritten NewRegistry_distinct (mkey "s1" "c")) as (_ & HC & _).
    destruct (Hwritten NewRegistry_distinct (mkey "s1" "h")) as (_ & _ & HH).
    split; [|split; [|split]].
    + apply (HG []); [reflexivity|vm_compute; reflexivity].
    + apply (HC []); [reflexivity|vm_compute; reflexivity].
    + apply (HH []); [reflexivity|vm_compute; reflexivity].
    + vm_compute in Hrun. injection Hrun as <-. vm_compute. reflexivity.
Defined.

End ingest_facts.

(** ** Hub *)

Module ws_facts.
Import buffer buffer_spec ws ws_spec buffer_facts.










Example filtered_broadcast_scenario :
  buildClientMessage listed_order 99 (client_with [msub "s1" "a"]) two_gauges
    = Some {| m_type := "snapshot";
              m_timestamp := 99;
              m_gauges := {["s1/a" := {| js_ts := 10; js_val := 1 |}]};
              m_counters := ∅;
              m_histograms := ∅ |}.
Proof. vm_compute. reflexivity. Qed.


(** A NaN under a string form that a later entry of the filter shares is
    overwritten before [json.Marshal] sees it; in the other order of
    the filter it stays, and there is no message. *)
Example overwritten_nan_scenario :
  buildClientMessage listed_order 99
    (client_with [msub "a/b" "c"; msub "a" "b/c"]) colliding_nan_gauges
    = Some {| m_type := "snapshot";
              m_timestamp := 99;
              m_gauges := {["a/b/c" := {| js_ts := 20; js_val := 2 |}]};
              m_counters := ∅;
              m_histograms := ∅ |} ∧
  buildClientMessage listed_order 99
    (client_with [msub "a" "b/c"; msub "a/b" "c"]) colliding_nan_gauges = None.
Proof. split; vm_compute; reflexivity. Qed.

Lemma take_take_app {A} (n : nat) (l k : list A) :
  take n (take n l ++ k) = take n (l ++ k).
Proof.
  rewrite !take_app, take_take, length_take, Nat.min_id.
  f_equal. f_equal. lia.
Qed.

Lemma omap_pointwise {A B} (f g : A → option B) (l : list A) :
  (∀ x, f x = g x) → omap f l = omap g l.
Proof.
  intros Hfg. induction l as [|x l IH]; [done|].
  change (omap f (x :: l)) with (match f x with Some y => y :: omap f l | None => omap f l end).
  change (omap g (x :: l)) with (match g x with Some y => y :: omap g l | None => omap g l end).
  by rewrite Hfg, IH.
Qed.

Lemma buildClientMessage_subs range now c1 c2 snapshot :
  subs c1 = subs c2 →
  buildClientMessage range now c1 snapshot = buildClientMessage range now c2 snapshot.
Proof. intros H. unfold buildClientMessage. by rewrite H. Qed.

Lemma offer_snapshot_spec range now snapshot c :
  chan_ok (send c) →
  ∃ c', offer_snapshot range now snapshot c = Some c' ∧
        subs c' = subs c ∧
        cap (send c') = cap (send c) ∧
        chan_ok (send c') ∧
        buf (send c') =
          take (cap (send c))
               (buf (send c) ++ option_list (buildClientMessage range now c snapshot)).
Proof.
  intros [Hopen Hlen]. unfold offer_snapshot.
  destruct (buildClientMessage range now c snapshot) as [msg|]; simpl.
  - unfold try_send. rewrite Hopen.
    destruct (decide (length (buf (send c)) < cap (send c))%nat) as [Hroom|Hfull]; simpl.
    + eexists. split; [done|]. simpl. split; [done|]. split; [done|].
      split; [split; [done|]; simpl; rewrite length_app; simpl; lia|].
      rewrite take_ge; [done|]. rewrite length_app. simpl. lia.
    + eexists. split; [done|]. simpl. split; [done|]. split; [done|].
      split; [done|]. rewrite take_app_le by lia. rewrite take_ge; [done|lia].
  - exists c. split; [done|]. split; [done|]. split; [done|]. split; [done|].
    rewrite app_nil_r, take_ge; [done|lia].
Qed.

Lemma Client_eq c c' :
  subs c' = subs c → cap (send c') = cap (send c) →
  closed (send c') = closed (send c) → buf (send c') = buf (send c) → c' = c.
Proof.
  destruct c as [[cp bf cl] sb], c' as [[cp' bf' cl'] sb']. simpl.
  by intros -> -> -> ->.
Qed.

Lemma broadcastSnapshot_client range now m st snapshot client registered c :
  Registry_LatestSnapshot m = Some snapshot → hub_wf st →
  clients (hub st) !! client = Some registered →
  client_heap st !! client = Some c →
  ∃ st' c', broadcastSnapshot range now m st = Some st' ∧
            hub st' = hub st ∧ hub_wf st' ∧
            client_heap st' !! client = Some c' ∧
            offer_snapshot range (now client) snapshot c = Some c'.
Proof.
  intros Hsnap Hwf Hreg Hc. unfold broadcastSnapshot. rewrite Hsnap. simpl.
  rewrite decide_True.
  - destruct (Hwf _ _ Hreg) as (c0 & Hc0 & Hok). rewrite Hc in Hc0. injection Hc0 as <-.
    destruct (offer_snapshot_spec range (now client) snapshot c Hok)
      as (c' & Hoffer & _).
    eexists _, c'. split; [done|]. simpl. split; [done|].
    split; [|split; [|done]].
    + intros cl b Hcl. simpl in *.
      destruct (Hwf _ _ Hcl) as (c1 & Hc1 & Hok1).
      destruct (offer_snapshot_spec range (now cl) snapshot c1 Hok1)
        as (c1' & Hoffer1 & _ & _ & Hok1' & _).
      exists c1'. split; [|done].
      rewrite map_lookup_imap, Hc1. simpl. by rewrite Hcl.
    + rewrite map_lookup_imap, Hc. simpl. by rewrite Hreg.
  - intros cl b Hcl. simpl.
    destruct (Hwf _ _ Hcl) as (c1 & -> & Hok1). simpl.
    destruct (offer_snapshot_spec range (now cl) snapshot c1 Hok1) as (c1' & -> & _).
    by eexists.
Qed.

Lemma StartBroadcastLoop_client range ticks m snapshot client registered :
  Registry_LatestSnapshot m = Some snapshot →
  ∀ st c,
    hub_wf st →
    clients (hub st) !! client = Some registered →
    client_heap st !! client = Some c →
    ∃ st' c',
      StartBroadcastLoop range ticks m st = Some st' ∧ hub st' = hub st ∧
      client_heap st' !! client = Some c' ∧ subs c' = subs c ∧
      cap (send c') = cap (send c) ∧ chan_ok (send c') ∧
      buf (send c') =
        take (cap (send c))
             (buf (send c) ++
              omap (λ now, buildClientMessage range (now client) c snapshot) ticks).
Proof.
  intros Hsnap.
  induction ticks as [|now ticks IH]; intros st c Hwf Hreg Hc.
  - destruct (Hwf _ _ Hreg) as (c0 & Hc0 & [Hopen0 Hlen0]).
    rewrite Hc in Hc0. injection Hc0 as <-.
    exists st, c. simpl. split_and!; try done.
    rewrite app_nil_r, take_ge; [done|lia].
  - destruct (broadcastSnapshot_client range now m st snapshot client registered c
                Hsnap Hwf Hreg Hc) as (st1 & c1 & Hstep & Hhub1 & Hwf1 & Hc1 & Hoffer).
    destruct (Hwf _ _ Hreg) as (c0 & Hc0 & Hok).
    rewrite Hc in Hc0. injection Hc0 as <-.
    destruct (offer_snapshot_spec range (now client) snapshot c Hok)
      as (c1' & Hoffer' & Hsubs1 & Hcap1 & Hok1 & Hbuf1).
    rewrite Hoffer in Hoffer'. injection Hoffer' as <-.
    destruct (IH st1 c1 Hwf1) as (st' & c' & Hrun & Hhub & Hc' & Hsubs & Hcap & Hok' & Hbuf).
    { by rewrite Hhub1. }
    { done. }
    exists st', c'. simpl. rewrite Hstep. simpl.
    split; [done|]. split; [congruence|]. split; [done|]. split; [congruence|].
    split; [congruence|]. split; [done|].
    rewrite Hbuf, Hcap1, Hbuf1, take_take_app.
    rewrite <- (assoc_L (++)). f_equal. f_equal.
    destruct (buildClientMessage range (now client) c snapshot) as [msg|]; simpl.
    + f_equal. apply omap_pointwise. intros tick.
      by apply buildClientMessage_subs.
    + apply omap_pointwise. intros tick. by apply buildClientMessage_subs.
Qed.

(** C2, as amended.  Over any ticks, a registered subscriber whose
    mailbox has capacity [cap] (256 for the clients of
    [HandleWebSocket]) keeps the messages that fit: the mailbox is the
    first [cap] of what it held and what the ticks built, in tick
    order, and the rest is dropped.  The subscriber stays registered
    and its channel open: it is never disconnected for backpressure.
    A drop leaves no trace: there is no drop counter, and a client
    whose mailbox was full is exactly as it was. *)
Theorem full_mailbox_drops_silently range ticks m st client registered c :
  mem_wf m → hub_wf st →
  clients (hub st) !! client = Some registered →
  client_heap st !! client = Some c →
  ∃ snapshot st' c',
    Registry_LatestSnapshot m = Some snapshot ∧
    StartBroadcastLoop range ticks m st = Some st' ∧
    hub st' = hub st ∧
    client_heap st' !! client = Some c' ∧
    subs c' = subs c ∧
    cap (send c') = cap (send c) ∧
    closed (send c') = false ∧
    buf (send c') =
      take (cap (send c))
           (buf (send c) ++
            omap (λ now, buildClientMessage range (now client) c snapshot) ticks) ∧
    (length (buf (send c)) = cap (send c) → c' = c).
Proof.
  intros Hmem Hwf Hreg Hc.
  pose proof (Registry_LatestSnapshot_wf m Hmem) as Hsnap.
  destruct (StartBroadcastLoop_client range ticks m _ client registered Hsnap
              st c Hwf Hreg Hc)
    as (st' & c' & Hrun & Hhub & Hc' & Hsubs & Hcap & [Hopen Hlen] & Hbuf).
  eexists _, st', c'. split; [exact Hsnap|]. split_and!; try done.
  intros Hfull. apply Client_eq; try done.
  - destruct (Hwf _ _ Hreg) as (c0 & Hc0 & [Hopen0 _]). congruence.
  - rewrite Hbuf. rewrite take_app_le by lia. apply take_ge. lia.
Qed.

Lemma one_subscriber_wf : hub_wf one_subscriber.
Proof.
  intros client registered Hreg.
  unfold one_subscriber, Run_register in Hreg. simpl in Hreg.
  apply lookup_insert_Some in Hreg as [[<- _]|[_ Hreg]].
  - exists small_mailbox. split; [reflexivity|]. split; [reflexivity|simpl; lia].
  - simpl in Hreg. by rewrite lookup_empty in Hreg.
Qed.

Lemma full_mailbox_drops_silently_witness :
  ∃ st' c',
    StartBroadcastLoop listed_order five_ticks NewRegistry one_subscriber = Some st' ∧
    clients (hub st') !! 1%positive = Some true ∧
    client_heap st' !! 1%positive = Some c' ∧
    closed (send c') = false ∧
    m_timestamp <$> buf (send c') = [1; 2].
Proof.
  destruct (full_mailbox_drops_silently listed_order five_ticks NewRegistry
              one_subscriber 1%positive true small_mailbox)
    as (snapshot & st' & c' & Hsnap & Hrun & Hhub & Hc' & _ & _ & Hopen & Hbuf & _).
  - apply NewRegistry_wf.
  - apply one_subscriber_wf.
  - reflexivity.
  - reflexivity.
  - exists st', c'. split; [exact Hrun|]. split; [by rewrite Hhub|].
    split; [exact Hc'|]. split; [exact Hopen|].
    rewrite Hbuf. vm_compute in Hsnap. injection Hsnap as <-.
    vm_compute. reflexivity.
Defined.

Lemma drop_counter_counterexample :
  ∃ st2 st5,
    StartBroadcastLoop listed_order two_ticks NewRegistry one_subscriber = Some st2 ∧
    StartBroadcastLoop listed_order five_ticks NewRegistry one_subscriber = Some st5 ∧
    st5 = st2 ∧
    ∀ drops : HubState → nat, drops st5 ≠ (drops st2 + 3)%nat.
Proof.
  do 2 eexists. split; [vm_compute; reflexivity|].
  split; [vm_compute; reflexivity|].
  split; [reflexivity|].
  intros drops. lia.
Qed.

(** The invariant of the hub holds at the start and is kept by the
    operations on the set of clients. *)
Lemma NewHub_wf : hub_wf {| hub := NewHub; client_heap := ∅ |}.
Proof. intros client registered Hreg. simpl in Hreg. by rewrite lookup_empty in Hreg. Qed.

Lemma HandleWebSocket_wf st : hub_wf st → hub_wf (HandleWebSocket st).2.
Proof.
  intros Hwf client registered Hreg. simpl in *.
  destruct (decide (client = fresh (dom (client_heap st)))) as [->|Hne].
  - eexists. rewrite lookup_insert_eq. split; [done|]. split; [done|simpl; lia].
  - rewrite lookup_insert_ne in Hreg by done.
    rewrite lookup_insert_ne by done. by eapply Hwf.
Qed.

Lemma Run_unregister_wf client st st' :
  hub_wf st → Run_unregister client st = Some st' → hub_wf st'.
Proof.
  intros Hwf Hrun. unfold Run_unregister in Hrun.
  destruct (clients (hub st) !! client) as [b|] eqn:Hcl; [|by injection Hrun as <-].
  destruct (client_heap st !! client) as [c|]; [|done]. simpl in Hrun.
  destruct (close_chan (send c)) as [ch|]; [|done]. simpl in Hrun.
  injection Hrun as <-. intros cl registered Hreg. simpl in *.
  apply lookup_delete_Some in Hreg as [Hne Hreg].
  rewrite lookup_insert_ne by done. by eapply Hwf.
Qed.

Lemma readPump_message_chan msg c : send (readPump_message msg c) = send c.
Proof.
  unfold readPump_message. destruct msg as [[type new_subs]|]; [|done].
  by destruct (decide _).
Qed.

(** Overload at the capacity of the source: 259 ticks leave the state
    that 256 ticks left, with 256 messages queued. *)
Example mailbox_256_overload :
  ∃ st256 st259 c,
    StartBroadcastLoop listed_order (ticks_to 256) NewRegistry first_client
      = Some st256 ∧
    StartBroadcastLoop listed_order (ticks_to 259) NewRegistry first_client
      = Some st259 ∧
    st259 = st256 ∧
    client_heap st259 !! 1%positive = Some c ∧
    length (buf (send c)) = 256%nat ∧
    closed (send c) = false ∧
    clients (hub st259) !! 1%positive = Some true.
Proof.
  do 3 eexists. split; [vm_compute; reflexivity|].
  split; [vm_compute; reflexivity|].
  split; [reflexivity|].
  split; [vm_compute; reflexivity|].
  split; [vm_compute; reflexivity|].
  split; vm_compute; reflexivity.
Qed.

End ws_facts.

(** ** Authentication *)

Module auth_facts.
Import auth auth_spec.

Lemma authenticate_missing a md :
  enabled a = true → api_keys md = [] →
  ∃ msg, authenticate a md = Some {| code := Unauthenticated; message := msg |}.
Proof.
  intros Hen Hkeys. unfold authenticate. rewrite Hen. simpl.
  destruct md as [md|]; [|by eexists].
  simpl in Hkeys. rewrite Hkeys. by eexists.
Qed.

Lemma authenticate_invalid a md key keys :
  enabled a = true → api_keys md = key :: keys → apiKeys a !! key ≠ Some true →
  authenticate a md = Some {| code := PermissionDenied; message := "invalid API key" |}.
Proof.
  intros Hen Hkeys Hbad. unfold authenticate. rewrite Hen. simpl.
  destruct md as [md|]; [|done]. simpl in Hkeys. rewrite Hkeys.
  unfold ValidateAPIKey. rewrite Hen. simpl.
  destruct (apiKeys a !! key) as [[]|]; done.
Qed.

(** C9.  With authentication enabled, a request whose metadata has no
    [x-api-key] value is rejected with [Unauthenticated], and one whose
    first [x-api-key] value is not a configured key is rejected with
    [PermissionDenied]; in both cases the stream and the unary
    interceptor return the status without running the handler: the
    state is the one before the request, whatever the handler does. *)
Theorem unauthenticated_requests_rejected {St R} (a : Authenticator)
    (md : option MD) (handler : St → St * R) (σ : St) :
  enabled a = true →
  (api_keys md = [] →
   ∃ msg,
     authenticate a md = Some {| code := Unauthenticated; message := msg |} ∧
     StreamInterceptor a md handler σ
       = (σ, inl {| code := Unauthenticated; message := msg |}) ∧
     UnaryInterceptor a md handler σ
       = (σ, inl {| code := Unauthenticated; message := msg |})) ∧
  (∀ key keys,
     api_keys md = key :: keys → apiKeys a !! key ≠ Some true →
     authenticate a md
       = Some {| code := PermissionDenied; message := "invalid API key" |} ∧
     StreamInterceptor a md handler σ
       = (σ, inl {| code := PermissionDenied; message := "invalid API key" |}) ∧
     UnaryInterceptor a md handler σ
       = (σ, inl {| code := PermissionDenied; message := "invalid API key" |})).
Proof.
  intros Hen. split.
  - intros Hkeys. destruct (authenticate_missing a md Hen Hkeys) as (msg & Hauth).
    exists msg. unfold StreamInterceptor, UnaryInterceptor. by rewrite Hauth.
  - intros key keys Hkeys Hbad.
    pose proof (authenticate_invalid a md key keys Hen Hkeys Hbad) as Hauth.
    unfold StreamInterceptor, UnaryInterceptor. by rewrite Hauth.
Qed.

Lemma unauthenticated_requests_rejected_witness :
  StreamInterceptor one_key_authenticator (Some {["x-api-key" := ["wrong"]]})
    (λ n : nat, (S n, tt)) 0%nat
    = (0%nat, inl {| code := PermissionDenied; message := "invalid API key" |}) ∧
  StreamInterceptor one_key_authenticator (Some ∅)
    (λ n : nat, (S n, tt)) 0%nat
    = (0%nat, inl {| code := Unauthenticated; message := "missing API key" |}).
Proof.
  split.
  - apply (proj2 (unauthenticated_requests_rejected one_key_authenticator
                    (Some {["x-api-key" := ["wrong"]]}) (λ n : nat, (S n, tt)) 0%nat
                    eq_refl) "wrong" []).
    + reflexivity.
    + vm_compute. discriminate.
  - destruct (unauthenticated_requests_rejected one_key_authenticator
                (Some ∅) (λ n : nat, (S n, tt)) 0%nat) as [Hmissing _].
    + reflexivity.
    + destruct Hmissing as (msg & Hauth & Hstream & _).
      * vm_compute. reflexivity.
      * vm_compute in Hauth. injection Hauth as <-. exact Hstream.
Defined.

End auth_facts.
